(** * Weather time-series processor: memoizing decorator and derived metrics

    Shallow embedding of [weather_analysis/data_analis/utils.py]
    (the [cache_decorator]) and of
    [weather_analysis/data_analis/data_processing.py]
    (the [WeatherDataProcessor] class), together with the pandas
    operations the processor delegates to.

    Conventions.
    - A Python call either returns a value or raises: [result].
    - Code that reads and writes the decorator's dictionaries runs in the
      state-and-exception monad [M].
    - A cell of the temperature column is an exact rational or NaN
      ([cell]): rolling means, differences and comparisons are taken
      exactly.
    - Correlation coefficients are computed as numpy computes them, in
      IEEE 754 binary64 (the primitive floats), from the doubles nearest
      to the cells.  A coefficient is recorded as the real number the
      resulting double is, or NaN ([option R]). *)

From Stdlib Require Import ZArith QArith Qreals Reals Lra Lia.
From Stdlib Require PrimFloat SpecFloat FloatOps.
From stdpp Require Import gmap strings list.

Close Scope Q_scope.
Close Scope R_scope.
Open Scope Z_scope.
Open Scope nat_scope.

(** ** Python results and the state-and-exception monad *)

Inductive exn : Type :=
| ValueError
| TypeError
| KeyError
| AttributeError.

Inductive result (A : Type) : Type :=
| Ok (a : A)
| Raise (e : exn).
Arguments Ok {A} a.
Arguments Raise {A} e.

Definition M (S A : Type) : Type := S → result A * S.

#[global] Instance M_ret {S} : MRet (M S) := λ A a s, (Ok a, s).

#[global] Instance M_bind {S} : MBind (M S) := λ A B k m s,
  match m s with
  | (Ok a, s') => k a s'
  | (Raise e, s') => (Raise e, s')
  end.

(** A pure computation that may raise, run inside [M]. *)
Definition lift {S A} (r : result A) : M S A := λ s, (r, s).

Definition gets {S A} (f : S → A) : M S A := λ s, (Ok (f s), s).

Definition modify {S} (f : S → S) : M S () := λ s, (Ok (), f s).

(** [for x in xs: yield f(x)], collected by [list(...)]. *)
Fixpoint mapM {S A B} (f : A → M S B) (xs : list A) : M S (list B) :=
  match xs with
  | [] => mret []
  | x :: xs' => y ← f x; ys ← mapM f xs'; mret (y :: ys)
  end.

(** ** utils.py: [cache_decorator] *)

Module Cache.
Section cache_decorator.
(** [K]: hashable argument values, compared by Python's [==];
    [V]: results; [S]: the program state in which the closure variable
    [cache] lives, reached through [cache_get] / [cache_set]. *)
Context {K : Type} `{Countable K} {V S : Type}.

(** The tuple [(args, tuple(kwargs.items()))]: [kwargs.items()] lists
    the keyword arguments in the order the call passed them. *)
Definition key : Type := list K * list (string * K).

Definition make_key (args : list K) (kwargs : list (string * K)) : key :=
  (args, kwargs).

Context (cache_get : S → gmap key V) (cache_set : gmap key V → S → S).
Context (func : list K → list (string * K) → M S V).

(** [cache[key]], raising [KeyError] on a missing key. *)
Definition getitem (k : key) : M S V := λ s,
  match cache_get s !! k with
  | Some v => (Ok v, s)
  | None => (Raise KeyError, s)
  end.

(** [cache[key] = v] *)
Definition setitem (k : key) (v : V) : M S () :=
  modify (λ s, cache_set (<[k := v]> (cache_get s)) s).

Definition wrapper (args : list K) (kwargs : list (string * K)) : M S V :=
  let key := make_key args kwargs in
  cache ← gets cache_get;
  _ ← (if decide (cache !! key = None)
       then v ← func args kwargs; setitem key v
       else mret ());
  getitem key.
End cache_decorator.

(** A wrapped test function with a call counter: the state holds the
    dictionary, the outside world [W] the function may act on, and the
    number of times the function body ran. *)
Section counted.
Context {K : Type} `{Countable K} {V W : Type}.

Record counted : Type := Counted {
  cs_cache : gmap (@key K) V;
  cs_world : W;
  cs_calls : nat
}.

Definition counted_get (s : counted) : gmap key V := cs_cache s.

Definition counted_set (c : gmap key V) (s : counted) : counted :=
  {| cs_cache := c; cs_world := cs_world s; cs_calls := cs_calls s |}.

Context (f : list K → list (string * K) → M W V).

Definition counting (args : list K) (kwargs : list (string * K))
  : M counted V := λ s,
  let '(r, w) := f args kwargs (cs_world s) in
  (r, {| cs_cache := cs_cache s; cs_world := w;
         cs_calls := S (cs_calls s) |}).

Definition counted_wrapper : list K → list (string * K) → M counted V :=
  wrapper counted_get counted_set counting.
End counted.
Arguments counted K {_ _} V W.
End Cache.

(** ** The pandas and numpy operations the processor calls

    Modelled from the libraries' documented behaviour: they are not part
    of the repository. *)

Module Pandas.

(** A row label of the date index (a timestamp). *)
Abbreviation label := Z.

(** A float64 cell: missing (NaN) or a number. *)
Inductive cell : Type :=
| NaN
| Num (q : Q).

(** A Series: its index labels paired with its values, in row order. *)
Abbreviation Series := (list (label * cell)).

Definition index (s : Series) : list label := s.*1.
Definition values (s : Series) : list cell := s.*2.

(** The Series with the index of [s] and the values [vs]. *)
Definition with_values (s : Series) (vs : list cell) : Series :=
  zip (index s) vs.

(** The numbers of a list of cells, missing cells dropped. *)
Definition present (vs : list cell) : list Q :=
  omap (λ c, match c with Num q => Some q | NaN => None end) vs.

Definition Qsum (l : list Q) : Q := foldr Qplus 0%Q l.

Definition Qltb (x y : Q) : bool := negb (Qle_bool y x).

(** *** [Series.shift(periods)]: values move down by [periods] rows
    (up when negative); the vacated rows are NaN. *)
Definition shift (periods : Z) (vs : list cell) : list cell :=
  let n := length vs in
  if (0 <=? periods)%Z
  then let k := Z.to_nat periods in
       replicate (k `min` n) NaN ++ take (n - k) vs
  else let k := Z.to_nat (- periods) in
       drop k vs ++ replicate (k `min` n) NaN.

(** *** [Series.rolling(window).mean()]

    A negative window is rejected when the rolling object is built.
    Row [i] averages the observations among the last [window] rows ending
    at [i]; [min_periods] defaults to [window], so the cell is NaN unless
    the window holds [window] observations (and at least one). *)
Definition window_mean (w : nat) (rows : list cell) : cell :=
  let obs := present (drop (length rows - w) rows) in
  let nobs := length obs in
  if (w <=? nobs) && (0 <? nobs)
  then Num (Qred (Qsum obs / inject_Z (Z.of_nat nobs)))
  else NaN.

Definition rolling_mean (window : Z) (vs : list cell) : result (list cell) :=
  if (window <? 0)%Z then Raise ValueError
  else Ok ((λ i, window_mean (Z.to_nat window) (take (S i) vs))
             <$> seq 0 (length vs)).

(** *** [Series.diff()]: [s - s.shift(1)], NaN where either side is. *)
Definition cell_sub (a b : cell) : cell :=
  match a, b with
  | Num x, Num y => Num (Qred (x - y))
  | _, _ => NaN
  end.

Definition diff (vs : list cell) : list cell :=
  zip_with cell_sub vs (shift 1 vs).

(** *** Elementwise [<] and [&], and selection by a boolean mask.
    A comparison with NaN is false. *)
Definition cell_ltb (a b : cell) : bool :=
  match a, b with
  | Num x, Num y => Qltb x y
  | _, _ => false
  end.

Definition lt (a b : list cell) : list bool := zip_with cell_ltb a b.
Definition gt (a b : list cell) : list bool := zip_with cell_ltb b a.
Definition and_mask (m1 m2 : list bool) : list bool := zip_with andb m1 m2.

(** [s[mask]]: the rows of [s] whose mask entry is true. *)
Definition select (s : Series) (mask : list bool) : Series :=
  (filter (λ p, p.2 = true) (zip s mask)).*1.

(** *** The arithmetic of [numpy.cov] and [numpy.corrcoef]

    numpy computes in IEEE 754 binary64.  The steps of the two functions
    are written once, over the arithmetic they run in: [float64] is the
    arithmetic of the code, [exact] the real numbers, which give the
    value a float64 result approximates. *)
Record arith (F : Type) : Type := Arith {
  a_of_Z : Z → F;
  a_add : F → F → F;
  a_sub : F → F → F;
  a_mul : F → F → F;
  a_div : F → F → F;
  a_sqrt : F → F
}.
Arguments a_of_Z {F} _ _.
Arguments a_add {F} _ _ _.
Arguments a_sub {F} _ _ _.
Arguments a_mul {F} _ _ _.
Arguments a_div {F} _ _ _.
Arguments a_sqrt {F} _ _.

(** The double nearest to an integer (ties to even). *)
Definition float_of_Z (z : Z) : PrimFloat.float :=
  FloatOps.SF2Prim
    (SpecFloat.binary_normalize FloatOps.prec FloatOps.emax z 0 false).

(** The double a cell [Num q] enters the computation as: the quotient
    of numerator and denominator, correctly rounded. *)
Definition float_of_Q (q : Q) : PrimFloat.float :=
  PrimFloat.div (float_of_Z (Qnum q)) (float_of_Z (Zpos (Qden q))).

Definition float64 : arith PrimFloat.float :=
  {| a_of_Z := float_of_Z;
     a_add := PrimFloat.add;
     a_sub := PrimFloat.sub;
     a_mul := PrimFloat.mul;
     a_div := PrimFloat.div;
     a_sqrt := PrimFloat.sqrt |}.

Definition exact : arith R :=
  {| a_of_Z := IZR;
     a_add := Rplus;
     a_sub := Rminus;
     a_mul := Rmult;
     a_div := Rdiv;
     a_sqrt := sqrt |}.

(** *** [numpy.cov(a, b)] and [numpy.corrcoef(a, b)], entry [0, 1]

    [cov]: each row is centred on its own average, the matrix of inner
    products is multiplied by [1 / (N - 1)] ([ddof = 1]).  [corrcoef]:
    the entry is divided by the square roots of the two diagonal entries,
    one after the other.  Sums are accumulated from left to right; numpy
    may associate the terms of a long sum otherwise, so the last digits
    of a coefficient over more than a few observations are not claimed
    (sums of up to three terms, as in the examples below, do not depend
    on the association). *)
Section numpy.
Context {F : Type} (A : arith F).

Definition np_sum (l : list F) : F := foldl (a_add A) (a_of_Z A 0) l.

Definition np_mean (l : list F) : F :=
  a_div A (np_sum l) (a_of_Z A (Z.of_nat (length l))).

Definition centred (l : list F) : list F :=
  let avg := np_mean l in (λ x, a_sub A x avg) <$> l.

Definition np_dot (a b : list F) : F := np_sum (zip_with (a_mul A) a b).

Definition cov (xs ys : list F) : F :=
  let fact := a_of_Z A (Z.of_nat (length xs) - 1) in
  a_mul A (np_dot (centred xs) (centred ys)) (a_div A (a_of_Z A 1) fact).

Definition corrcoef (xs ys : list F) : F :=
  a_div A (a_div A (cov xs ys) (a_sqrt A (cov xs xs)))
          (a_sqrt A (cov ys ys)).
End numpy.

(** [numpy.clip(c, -1, 1)] and the reading of the result.  Clipping
    keeps NaN and otherwise compares and copies: it does not round, so
    it is taken on the number the double is. *)
Definition clip (lo hi x : R) : R := Rmax lo (Rmin hi x).

(** The number a finite double with sign [s], mantissa [m] and exponent
    [e] is. *)
Definition finite_value (s : bool) (m : positive) (e : Z) : R :=
  ((if s then -1 else 1) * IZR (Zpos m) * powerRZ 2 e)%R.

Definition clipped (f : PrimFloat.float) : option R :=
  match FloatOps.Prim2SF f with
  | SpecFloat.S754_nan => None
  | SpecFloat.S754_infinity s => Some (if s then -1 else 1)%R
  | SpecFloat.S754_zero _ => Some 0%R
  | SpecFloat.S754_finite s m e => Some (clip (-1) 1 (finite_value s m e))
  end.

(** [numpy.corrcoef(a, b)[0, 1]] as pandas calls it.  With a single
    observation the factor [N - 1] is 0: the inner products, all 0, are
    multiplied by [1 / 0 = inf], and every entry is NaN. *)
Definition corrcoef_0_1 (xs ys : list PrimFloat.float) : option R :=
  if decide (length xs = 1) then None
  else clipped (corrcoef float64 xs ys).

(** *** [Series.corr(other)] (Pearson, [min_periods = 1]) for two Series
    on the same index: rows where either value is NaN are dropped. *)
Definition valid_pairs (a b : list cell) : list (Q * Q) :=
  omap (λ p, match p with
             | (Num x, Num y) => Some (x, y)
             | _ => None
             end) (zip a b).

Definition corr (a b : list cell) : option R :=
  let ps := valid_pairs a b in
  if length ps <? 1 then None
  else corrcoef_0_1 (float_of_Q <$> ps.*1) (float_of_Q <$> ps.*2).

(** *** [Series.autocorr(lag)]: [self.corr(self.shift(lag))]. *)
Definition autocorr (lag : Z) (vs : list cell) : option R :=
  corr vs (shift lag vs).

(** *** DataFrame *)

(** A column holds float cells, or correlation coefficients. *)
Inductive column : Type :=
| Floats (vs : list cell)
| Coeffs (vs : list (option R)).

Definition column_length (c : column) : nat :=
  match c with
  | Floats vs => length vs
  | Coeffs vs => length vs
  end.

Record DataFrame : Type := mkDataFrame {
  df_index : list label;
  df_columns : list (string * column)
}.

(** [pd.DataFrame(index=idx)] *)
Definition empty_frame (idx : list label) : DataFrame :=
  {| df_index := idx; df_columns := [] |}.

(** [df[name]] *)
Fixpoint get_column (name : string) (cols : list (string * column))
  : option column :=
  match cols with
  | [] => None
  | (n, c) :: rest => if decide (n = name) then Some c
                      else get_column name rest
  end.

(** An existing column is replaced in place, a new one is appended. *)
Fixpoint set_column (name : string) (c : column)
  (cols : list (string * column)) : list (string * column) :=
  match cols with
  | [] => [(name, c)]
  | (n, c') :: rest => if decide (n = name) then (name, c) :: rest
                       else (n, c') :: set_column name c rest
  end.

(** [s.get(l)]: the value at the first row labelled [l]. *)
Fixpoint series_get (l : label) (s : Series) : option cell :=
  match s with
  | [] => None
  | (l', v) :: rest => if decide (l' = l) then Some v
                       else series_get l rest
  end.

(** Alignment of a Series to a frame's index on column assignment: taken
    as it is when the indexes are equal, otherwise re-indexed (labels
    absent from the Series get NaN), which pandas refuses when the
    Series' own index has duplicate labels. *)
Definition reindex (s : Series) (idx : list label) : result (list cell) :=
  if decide (index s = idx) then Ok (values s)
  else if decide (NoDup (index s))
       then Ok ((λ l, default NaN (series_get l s)) <$> idx)
       else Raise ValueError.

(** [df[name] = s] for a Series [s].  A frame whose index is empty first
    adopts the index of a non-empty value. *)
Definition setitem_series (df : DataFrame) (name : string) (s : Series)
  : result DataFrame :=
  let idx := if decide (df_index df = [] ∧ s ≠ [])
             then index s else df_index df in
  match reindex s idx with
  | Ok vs => Ok {| df_index := idx;
                   df_columns := set_column name (Floats vs) (df_columns df) |}
  | Raise e => Raise e
  end.

(** [df[name] = xs] for a list [xs] of floats: its length must match the
    index (an empty index adopts [0 .. len(xs) - 1]). *)
Definition setitem_list (df : DataFrame) (name : string)
  (xs : list (option R)) : result DataFrame :=
  let idx := if decide (df_index df = [] ∧ xs ≠ [])
             then seqZ 0 (Z.of_nat (length xs)) else df_index df in
  if decide (length xs = length idx)
  then Ok {| df_index := idx;
             df_columns := set_column name (Coeffs xs) (df_columns df) |}
  else Raise ValueError.

(** *** Reference definitions used to state the properties *)

(** Pearson's correlation coefficient of paired samples, each centred on
    its own mean: undefined when either sample has zero variance. *)
Definition Rsum (l : list R) : R := foldr Rplus 0%R l.

Definition Rmean (l : list R) : R := (Rsum l / INR (length l))%R.

Definition sum_products (xs ys : list R) : R :=
  Rsum (zip_with (λ x y, (x - Rmean xs) * (y - Rmean ys)) xs ys)%R.

Definition pearson (xs ys : list R) : option R :=
  if Req_dec_T (sum_products xs xs) 0 then None
  else if Req_dec_T (sum_products ys ys) 0 then None
  else Some (sum_products xs ys
             / sqrt (sum_products xs xs * sum_products ys ys))%R.

(** Inner product. *)
Definition dot (a b : list R) : R := Rsum (zip_with Rmult a b).

(** The lag-[k] autocorrelation that centres both segments on the mean
    of the full series and divides by the full series' sum of squares. *)
Definition full_series_autocorrelation (k : nat) (xs : list R) : R :=
  let m := Rmean xs in
  (Rsum (zip_with (λ x y, (x - m) * (y - m))
           (drop k xs) (take (length xs - k) xs))
   / Rsum ((λ x, (x - m) * (x - m)) <$> xs))%R.

(** Row [i] with both its neighbours, when it has both. *)
Definition neighbours (t : list cell) (i : nat) : option (cell * cell * cell) :=
  match i with
  | 0 => None
  | S j =>
      match t !! j, t !! i, t !! S i with
      | Some a, Some b, Some c => Some (a, b, c)
      | _, _, _ => None
      end
  end.

(** Strictly greater (less) than both neighbours. *)
Definition is_local_max (t : list cell) (i : nat) : bool :=
  match neighbours t i with
  | Some (a, b, c) => cell_ltb a b && cell_ltb c b
  | None => false
  end.

Definition is_local_min (t : list cell) (i : nat) : bool :=
  match neighbours t i with
  | Some (a, b, c) => cell_ltb b a && cell_ltb b c
  | None => false
  end.

(** The rows of [s] at the positions satisfying [P], in row order. *)
Definition rows_where (P : nat → bool) (s : Series) : Series :=
  omap (λ i, s !! i) (filter (λ i, P i = true) (seq 0 (length s))).

(** The full-length column that holds the value of row [i] where [P i]
    and NaN elsewhere. *)
Definition sparse_column (P : nat → bool) (t : list cell) : list cell :=
  imap (λ i v, if P i then v else NaN) t.

End Pandas.

(** ** Python call arguments *)

(** The values a processor method can receive: a processor object, which
    hashes and compares by identity ([oid]), or an integer. *)
Inductive pyval : Type :=
| PObj (oid : nat)
| PInt (z : Z).

#[global] Instance pyval_eq_dec : EqDecision pyval.
Proof. solve_decision. Defined.

#[global] Instance pyval_countable : Countable pyval.
Proof.
  refine (inj_countable'
    (λ v, match v with PObj o => inl o | PInt z => inr z end)
    (λ x, match x with inl o => PObj o | inr z => PInt z end) _).
  intros []; reflexivity.
Defined.

Abbreviation pykey := (@Cache.key pyval).

Definition result_map {A B} (f : A → B) (r : result A) : result B :=
  match r with
  | Ok a => Ok (f a)
  | Raise e => Raise e
  end.

(** [kwargs.get(name)] and [kwargs] without [name]. *)
Fixpoint kw_get (name : string) (kwargs : list (string * pyval))
  : option pyval :=
  match kwargs with
  | [] => None
  | (n, v) :: rest => if decide (n = name) then Some v else kw_get name rest
  end.

Definition kw_remove (name : string) (kwargs : list (string * pyval))
  : list (string * pyval) :=
  filter (λ p, p.1 ≠ name) kwargs.

(** Python's binding of a call's positional arguments [args] and
    keyword arguments [kwargs] to the parameter list [params]:
    positional arguments fill the parameters in order, keyword arguments
    the remaining ones by name; a parameter given twice or not at all, a
    surplus positional argument and an unknown keyword are [TypeError]s. *)
Fixpoint bind_args (params : list string) (args : list pyval)
  (kwargs : list (string * pyval)) : result (list pyval) :=
  match params with
  | [] =>
      match args, kwargs with
      | [], [] => Ok []
      | _, _ => Raise TypeError
      end
  | p :: ps =>
      match args with
      | a :: args' =>
          match kw_get p kwargs with
          | Some _ => Raise TypeError
          | None => result_map (cons a) (bind_args ps args' kwargs)
          end
      | [] =>
          match kw_get p kwargs with
          | Some v => result_map (cons v) (bind_args ps [] (kw_remove p kwargs))
          | None => Raise TypeError
          end
      end
  end.

(** ** data_processing.py: [WeatherDataProcessor] *)

Module WeatherDataProcessor.
Import Pandas.

(** The five dictionaries created by the five [@cache_decorator]
    applications in the class body.  Each belongs to its decorated
    function, so all processor objects share them. *)
Record caches : Type := Caches {
  moving_average_cache : gmap pykey Series;
  differential_cache : gmap pykey Series;
  autocorrelation_cache : gmap pykey (option R);
  find_extremes_cache : gmap pykey (Series * Series);
  process_data_cache : gmap pykey DataFrame
}.

Definition no_caches : caches :=
  {| moving_average_cache := ∅; differential_cache := ∅;
     autocorrelation_cache := ∅; find_extremes_cache := ∅;
     process_data_cache := ∅ |}.

Definition set_moving_average_cache c (st : caches) : caches :=
  {| moving_average_cache := c;
     differential_cache := differential_cache st;
     autocorrelation_cache := autocorrelation_cache st;
     find_extremes_cache := find_extremes_cache st;
     process_data_cache := process_data_cache st |}.

Definition set_differential_cache c (st : caches) : caches :=
  {| moving_average_cache := moving_average_cache st;
     differential_cache := c;
     autocorrelation_cache := autocorrelation_cache st;
     find_extremes_cache := find_extremes_cache st;
     process_data_cache := process_data_cache st |}.

Definition set_autocorrelation_cache c (st : caches) : caches :=
  {| moving_average_cache := moving_average_cache st;
     differential_cache := differential_cache st;
     autocorrelation_cache := c;
     find_extremes_cache := find_extremes_cache st;
     process_data_cache := process_data_cache st |}.

Definition set_find_extremes_cache c (st : caches) : caches :=
  {| moving_average_cache := moving_average_cache st;
     differential_cache := differential_cache st;
     autocorrelation_cache := autocorrelation_cache st;
     find_extremes_cache := c;
     process_data_cache := process_data_cache st |}.

Definition set_process_data_cache c (st : caches) : caches :=
  {| moving_average_cache := moving_average_cache st;
     differential_cache := differential_cache st;
     autocorrelation_cache := autocorrelation_cache st;
     find_extremes_cache := find_extremes_cache st;
     process_data_cache := c |}.

Section methods.
(** [self.data['temperature']] of the processor object [oid]: the
    date index and the temperature column of the table given to
    [__init__].  No method assigns to it. *)
Context (data_of : nat → Series).

(** *** The undecorated method bodies

    An integer in the place of [self] has no attribute [data]; a
    processor object in the place of an integer is rejected by pandas. *)

Definition moving_average_func (args : list pyval)
  (kwargs : list (string * pyval)) : result Series :=
  match bind_args ["self"; "window"] args kwargs with
  | Ok [PObj self; PInt window] =>
      let temperature := data_of self in
      result_map (with_values temperature)
        (rolling_mean window (values temperature))
  | Ok [PObj _; PObj _] => Raise ValueError
  | Ok _ => Raise AttributeError
  | Raise e => Raise e
  end.

Definition differential_func (args : list pyval)
  (kwargs : list (string * pyval)) : result Series :=
  match bind_args ["self"] args kwargs with
  | Ok [PObj self] =>
      let temperature := data_of self in
      Ok (with_values temperature (diff (values temperature)))
  | Ok _ => Raise AttributeError
  | Raise e => Raise e
  end.

Definition autocorrelation_func (args : list pyval)
  (kwargs : list (string * pyval)) : result (option R) :=
  match bind_args ["self"; "lag"] args kwargs with
  | Ok [PObj self; PInt lag] =>
      Ok (autocorr lag (values (data_of self)))
  | Ok [PObj _; PObj _] => Raise TypeError
  | Ok _ => Raise AttributeError
  | Raise e => Raise e
  end.

Definition find_extremes_func (args : list pyval)
  (kwargs : list (string * pyval)) : result (Series * Series) :=
  match bind_args ["self"] args kwargs with
  | Ok [PObj self] =>
      let temperature := data_of self in
      let t := values temperature in
      let maxima :=
        select temperature (and_mask (lt (shift 1 t) t) (lt (shift (-1) t) t)) in
      let minima :=
        select temperature (and_mask (gt (shift 1 t) t) (gt (shift (-1) t) t)) in
      Ok (maxima, minima)
  | Ok _ => Raise AttributeError
  | Raise e => Raise e
  end.

(** *** The decorated methods *)

Definition moving_average : list pyval → list (string * pyval)
                            → M caches Series :=
  Cache.wrapper moving_average_cache set_moving_average_cache
    (λ args kwargs, lift (moving_average_func args kwargs)).

Definition differential : list pyval → list (string * pyval)
                          → M caches Series :=
  Cache.wrapper differential_cache set_differential_cache
    (λ args kwargs, lift (differential_func args kwargs)).

Definition autocorrelation : list pyval → list (string * pyval)
                             → M caches (option R) :=
  Cache.wrapper autocorrelation_cache set_autocorrelation_cache
    (λ args kwargs, lift (autocorrelation_func args kwargs)).

Definition find_extremes : list pyval → list (string * pyval)
                           → M caches (Series * Series) :=
  Cache.wrapper find_extremes_cache set_find_extremes_cache
    (λ args kwargs, lift (find_extremes_func args kwargs)).

(** [list(self.autocorrelation_generator())]: the generator runs
    [self.autocorrelation(lag)] for [lag] in [range(n)], in order. *)
Definition autocorrelation_generator (self : nat)
  : M caches (list (option R)) :=
  let n := length (data_of self) in
  mapM (λ lag, autocorrelation [PObj self; PInt (Z.of_nat lag)] [])
       (seq 0 n).

Definition process_data_func (args : list pyval)
  (kwargs : list (string * pyval)) : M caches DataFrame :=
  match bind_args ["self"] args kwargs with
  | Ok [PObj self] =>
      let result := empty_frame (index (data_of self)) in
      result ← lift (setitem_series result "temperature" (data_of self));
      ma ← moving_average [PObj self] [("window", PInt 7)];
      result ← lift (setitem_series result "moving_average" ma);
      d ← differential [PObj self] [];
      result ← lift (setitem_series result "differential" d);
      ac ← autocorrelation_generator self;
      result ← lift (setitem_list result "autocorrelation" ac);
      extremes ← find_extremes [PObj self] [];
      result ← lift (setitem_series result "maxima" extremes.1);
      result ← lift (setitem_series result "minima" extremes.2);
      mret result
  | Ok _ => lift (Raise AttributeError)
  | Raise e => lift (Raise e)
  end.

Definition process_data : list pyval → list (string * pyval)
                          → M caches DataFrame :=
  Cache.wrapper process_data_cache set_process_data_cache
    process_data_func.
(** *** The class seen from outside: its five cached operations *)

Inductive method : Type :=
| MovingAverage
| Differential
| Autocorrelation
| FindExtremes
| ProcessData.

Inductive value : Type :=
| VSeries (s : Series)
| VFloat (x : option R)
| VPair (p : Series * Series)
| VFrame (df : DataFrame).

Definition returning {A} (inj : A → value) (m : M caches A)
  : M caches value := λ st,
  let '(r, st') := m st in (result_map inj r, st').

Definition call (m : method) (args : list pyval)
  (kwargs : list (string * pyval)) : M caches value :=
  match m with
  | MovingAverage => returning VSeries (moving_average args kwargs)
  | Differential => returning VSeries (differential args kwargs)
  | Autocorrelation => returning VFloat (autocorrelation args kwargs)
  | FindExtremes => returning VPair (find_extremes args kwargs)
  | ProcessData => returning VFrame (process_data args kwargs)
  end.

(** The entry stored for operation [m] under key [k], if any. *)
Definition entry (m : method) (k : pykey) (st : caches) : option value :=
  match m with
  | MovingAverage => VSeries <$> moving_average_cache st !! k
  | Differential => VSeries <$> differential_cache st !! k
  | Autocorrelation => VFloat <$> autocorrelation_cache st !! k
  | FindExtremes => VPair <$> find_extremes_cache st !! k
  | ProcessData => VFrame <$> process_data_cache st !! k
  end.

(** The states the program can be in: no call made yet, or one more
    call made. *)
Inductive reachable : caches → Prop :=
| reachable_init : reachable no_caches
| reachable_call st m args kwargs r st' :
    reachable st →
    call m args kwargs st = (r, st') →
    reachable st'.

(** *** What the cached operations compute, without the caches *)

Definition process_data_table (self : nat) : result DataFrame :=
  let temperature := data_of self in
  let t := values temperature in
  match rolling_mean 7 t with
  | Raise e => Raise e
  | Ok ma =>
      let extremes :=
        (select temperature
           (and_mask (lt (shift 1 t) t) (lt (shift (-1) t) t)),
         select temperature
           (and_mask (gt (shift 1 t) t) (gt (shift (-1) t) t))) in
      match reindex extremes.1 (index temperature),
            reindex extremes.2 (index temperature) with
      | Ok mx, Ok mn =>
          Ok {| df_index := index temperature;
                df_columns :=
                  [("temperature", Floats t);
                   ("moving_average", Floats ma);
                   ("differential", Floats (diff t));
                   ("autocorrelation",
                    Coeffs ((λ lag, autocorr (Z.of_nat lag) t)
                              <$> seq 0 (length t)));
                   ("maxima", Floats mx);
                   ("minima", Floats mn)] |}
      | Raise e, _ => Raise e
      | _, Raise e => Raise e
      end
  end.

Definition process_data_pure (args : list pyval)
  (kwargs : list (string * pyval)) : result DataFrame :=
  match bind_args ["self"] args kwargs with
  | Ok [PObj self] => process_data_table self
  | Ok _ => Raise AttributeError
  | Raise e => Raise e
  end.

(** Every stored entry is the value its operation computes. *)
Definition coherent (st : caches) : Prop :=
  (∀ k v, moving_average_cache st !! k = Some v →
          moving_average_func k.1 k.2 = Ok v) ∧
  (∀ k v, differential_cache st !! k = Some v →
          differential_func k.1 k.2 = Ok v) ∧
  (∀ k v, autocorrelation_cache st !! k = Some v →
          autocorrelation_func k.1 k.2 = Ok v) ∧
  (∀ k v, find_extremes_cache st !! k = Some v →
          find_extremes_func k.1 k.2 = Ok v) ∧
  (∀ k v, process_data_cache st !! k = Some v →
          process_data_pure k.1 k.2 = Ok v).
End methods.

(** The object a call is made on: the value bound to [self], the first
    positional argument or else the keyword [self]. *)
Definition key_self (k : pykey) : option pyval :=
  match k.1 with
  | a :: _ => Some a
  | [] => kw_get "self" k.2
  end.

(** [m'] has the entries of [m], unchanged, and possibly new entries,
    all made by calls on the object [o]. *)
Definition grows_map {V} (o : option pyval) (m m' : gmap pykey V) : Prop :=
  ∀ k, m' !! k = m !! k ∨ (m !! k = None ∧ key_self k = o).

Definition grows (o : option pyval) (st st' : caches) : Prop :=
  grows_map o (moving_average_cache st) (moving_average_cache st') ∧
  grows_map o (differential_cache st) (differential_cache st') ∧
  grows_map o (autocorrelation_cache st) (autocorrelation_cache st') ∧
  grows_map o (find_extremes_cache st) (find_extremes_cache st') ∧
  grows_map o (process_data_cache st) (process_data_cache st').

(** A computation that only adds entries for [o], and none to the
    dictionary of [process_data]. *)
Definition preserves {A} (o : option pyval) (m : M caches A) : Prop :=
  ∀ st r st', m st = (r, st') →
    grows o st st' ∧ process_data_cache st' = process_data_cache st.

(** A computation that, from a coherent state, yields [r] and a coherent
    state. *)
Definition computes {A} (data_of : nat → Series) (m : M caches A)
  (r : result A) : Prop :=
  ∀ st, coherent data_of st →
    ∃ st', m st = (r, st') ∧ coherent data_of st'.
End WeatherDataProcessor.

(** ** Sample tables *)

Module Samples.
Import Pandas.

Definition series_of (temps : list Z) : Series :=
  zip (seqZ 0 (Z.of_nat (length temps))) (Num <$> (inject_Z <$> temps)).

(** The table of tests/test_data_processing.py: ten consecutive days. *)
Definition test_series : Series := series_of [0; 1; 2; 1; 3; 4; 2; 5; 6; 7]%Z.

Definition rising_series : Series := series_of [0; 1; 3]%Z.


Definition single_row : Series := series_of [5]%Z.

Definition two_values : Series := series_of [1; 2]%Z.


(** Two peaks recorded under the same date. *)
Definition duplicate_dates : Series :=
  [(0%Z, Num 0); (1%Z, Num 2); (2%Z, Num 0); (1%Z, Num 2); (4%Z, Num 0)].

(** One table for every processor object. *)
Definition every (s : Series) : nat → Series := λ _, s.

(** The ten-day table for processor 0, the three-day one for the
    others. *)
Definition two_tables : nat → Series := λ o,
  match o with
  | 0 => test_series
  | _ => rising_series
  end.

(** The largest double below 1, [1 - 2^-53]. *)
Definition below_one : R := (1 - / 9007199254740992)%R.
End Samples.

(** ** Sequences of calls *)

Module Traces.
Import Cache Pandas WeatherDataProcessor.

Section counted_calls.
Context {K : Type} `{Countable K} {V W : Type}.
Context (f : list K → list (string * K) → M W V).

(** A caller that makes the calls [cs] one after another on one wrapped
    function, going on whatever each call returns or raises. *)
Fixpoint run_calls (cs : list (@key K)) (s : counted K V W)
  : counted K V W :=
  match cs with
  | [] => s
  | c :: rest => run_calls rest (counted_wrapper f c.1 c.2 s).2
  end.
End counted_calls.

Section processor_calls.
Context (data_of : nat → Series).

(** The same for the operations of the processor class. *)
Fixpoint call_all (cs : list (method * pykey)) (st : caches) : caches :=
  match cs with
  | [] => st
  | c :: rest => call_all rest (call data_of c.1 c.2.1 c.2.2 st).2
  end.

(** What an operation computes, without the caches. *)
Definition call_pure (m : method) (args : list pyval)
  (kwargs : list (string * pyval)) : result value :=
  match m with
  | MovingAverage => result_map VSeries (moving_average_func data_of args kwargs)
  | Differential => result_map VSeries (differential_func data_of args kwargs)
  | Autocorrelation =>
      result_map VFloat (autocorrelation_func data_of args kwargs)
  | FindExtremes => result_map VPair (find_extremes_func data_of args kwargs)
  | ProcessData => result_map VFrame (process_data_pure data_of args kwargs)
  end.

(** The entries [process_data] leaves behind for the object [self]: the
    calls it makes on the other operations. *)
Definition warmed (self : nat) (st : caches) : Prop :=
  is_Some (moving_average_cache st !! ([PObj self], [("window", PInt 7)])) ∧
  is_Some (differential_cache st !! ([PObj self], [])) ∧
  is_Some (find_extremes_cache st !! ([PObj self], [])) ∧
  ∀ lag, lag < length (data_of self) →
    is_Some (autocorrelation_cache st
               !! ([PObj self; PInt (Z.of_nat lag)], [])).

(** Whenever a table is stored for an object, so are those entries. *)
Definition tables_warmed (st : caches) : Prop :=
  ∀ k tbl self,
    process_data_cache st !! k = Some tbl →
    bind_args ["self"] k.1 k.2 = Ok [PObj self] →
    warmed self st.
End processor_calls.
End Traces.

(** * Properties of the memoizing decorator *)

Module CacheFacts.
Import Cache.

Section wrapper_facts.
Context {K : Type} `{Countable K} {V S : Type}.
Context (cache_get : S → gmap (@key K) V)
        (cache_set : gmap (@key K) V → S → S).
Context (func : list K → list (string * K) → M S V).
Hypothesis get_set : ∀ c s, cache_get (cache_set c s) = c.

Local Abbreviation wrapper := (wrapper cache_get cache_set func).

(** A stored key is answered from the dictionary: the function does not
    run and the state is left as it is. *)
Lemma wrapper_hit args kwargs s v :
  cache_get s !! make_key args kwargs = Some v →
  wrapper args kwargs s = (Ok v, s).
Proof.
  intros Hk. unfold Cache.wrapper, mbind, M_bind, gets, getitem. simpl.
  rewrite decide_False by (rewrite Hk; discriminate).
  simpl. unfold mret, M_ret. by rewrite Hk.
Qed.

(** On a new key the function runs; its value is stored and returned. *)
Lemma wrapper_miss_ok args kwargs s v s' :
  cache_get s !! make_key args kwargs = None →
  func args kwargs s = (Ok v, s') →
  wrapper args kwargs s
  = (Ok v, cache_set (<[make_key args kwargs := v]> (cache_get s')) s').
Proof.
  intros Hk Hf. unfold Cache.wrapper, mbind, M_bind, gets, getitem. simpl.
  rewrite decide_True by done.
  rewrite Hf. unfold setitem, modify. simpl.
  by rewrite get_set, lookup_insert_eq.
Qed.

(** A returned value is the one stored under the key. *)
Lemma wrapper_ok_stored args kwargs s v s' :
  wrapper args kwargs s = (Ok v, s') →
  cache_get s' !! make_key args kwargs = Some v.
Proof.
  unfold Cache.wrapper, mbind, M_bind, gets, getitem. simpl.
  case_decide as Hk.
  - destruct (func args kwargs s) as [[v'|e] s1]; [|done].
    unfold setitem, modify. simpl. rewrite get_set, lookup_insert_eq.
    by intros [= <- <-]; rewrite get_set, lookup_insert_eq.
  - unfold mret, M_ret.
    destruct (cache_get s !! make_key args kwargs) as [v'|] eqn:Hv; [|done].
    by intros [= <- <-].
Qed.

(** On a new key a raising function stores nothing. *)
Lemma wrapper_miss_raise args kwargs s e s' :
  cache_get s !! make_key args kwargs = None →
  func args kwargs s = (Raise e, s') →
  wrapper args kwargs s = (Raise e, s').
Proof.
  intros Hk Hf. unfold Cache.wrapper, mbind, M_bind, gets, getitem. simpl.
  rewrite decide_True by done.
  by rewrite Hf.
Qed.
End wrapper_facts.

Section lifted_facts.
Context {K : Type} `{Countable K} {V S : Type}.
Context (cache_get : S → gmap (@key K) V)
        (cache_set : gmap (@key K) V → S → S).
Context (f : list K → list (string * K) → result V).
Hypothesis get_set : ∀ c s, cache_get (cache_set c s) = c.

(** The three ways a call to a wrapped pure function can go. *)
Lemma wrapper_lift_cases args kwargs s :
  let k := make_key args kwargs in
  let run := wrapper cache_get cache_set (λ a kw, lift (f a kw)) args kwargs s in
  (∃ v, cache_get s !! k = Some v ∧ run = (Ok v, s)) ∨
  (cache_get s !! k = None ∧
   ∃ v, f args kwargs = Ok v ∧
        run = (Ok v, cache_set (<[k := v]> (cache_get s)) s)) ∨
  (cache_get s !! k = None ∧
   ∃ e, f args kwargs = Raise e ∧ run = (Raise e, s)).
Proof.
  intros k run. subst run.
  destruct (cache_get s !! k) as [v|] eqn:Hk.
  - left. exists v. split; [done|]. by apply wrapper_hit.
  - right. destruct (f args kwargs) as [v|e] eqn:Hf.
    + left. split; [done|]. exists v. split; [done|].
      rewrite (wrapper_miss_ok _ _ _ get_set args kwargs s v s); [done..|].
      unfold lift. by rewrite Hf.
    + right. split; [done|]. exists e. split; [done|].
      apply wrapper_miss_raise; [done|]. unfold lift. by rewrite Hf.
Qed.
End lifted_facts.

Section counted_facts.
Context {K : Type} `{Countable K} {V W : Type}.
Context (f : list K → list (string * K) → M W V).

Lemma counted_get_set (c : gmap (@key K) V) (s : counted K V W) :
  counted_get (counted_set c s) = c.
Proof. reflexivity. Qed.

Lemma counted_hit args kwargs (s : counted K V W) v :
  cs_cache s !! make_key args kwargs = Some v →
  counted_wrapper f args kwargs s = (Ok v, s).
Proof. intros Hk. by apply wrapper_hit. Qed.

Lemma counted_miss_ok args kwargs (s : counted K V W) v w :
  cs_cache s !! make_key args kwargs = None →
  f args kwargs (cs_world s) = (Ok v, w) →
  counted_wrapper f args kwargs s
  = (Ok v, {| cs_cache := <[make_key args kwargs := v]> (cs_cache s);
              cs_world := w; cs_calls := S (cs_calls s) |}).
Proof.
  intros Hk Hf. unfold counted_wrapper.
  rewrite (wrapper_miss_ok counted_get counted_set (counting f)
             counted_get_set args kwargs s v
             {| cs_cache := cs_cache s; cs_world := w;
                cs_calls := S (cs_calls s) |});
    [reflexivity | done |].
  unfold counting. by rewrite Hf.
Qed.

Lemma counted_miss_raise args kwargs (s : counted K V W) e w :
  cs_cache s !! make_key args kwargs = None →
  f args kwargs (cs_world s) = (Raise e, w) →
  counted_wrapper f args kwargs s
  = (Raise e, {| cs_cache := cs_cache s; cs_world := w;
                 cs_calls := S (cs_calls s) |}).
Proof.
  intros Hk Hf. unfold counted_wrapper.
  rewrite (wrapper_miss_raise counted_get counted_set (counting f)
             args kwargs s e
             {| cs_cache := cs_cache s; cs_world := w;
                cs_calls := S (cs_calls s) |});
    [reflexivity | done |].
  unfold counting. by rewrite Hf.
Qed.

(** Two calls on a key that is already stored do not run the function
    at all and return the stored value. *)
Lemma counted_twice_stored args kwargs (s : counted K V W) v :
  cs_cache s !! make_key args kwargs = Some v →
  ∃ s2, (counted_wrapper f args kwargs ≫= λ _,
         counted_wrapper f args kwargs) s = (Ok v, s2) ∧
        cs_calls s2 = cs_calls s.
Proof.
  intros Hk. exists s. unfold mbind, M_bind.
  rewrite (counted_hit _ _ _ v) by done.
  by rewrite (counted_hit _ _ _ v).
Qed.

(** C5. Calling a cached operation twice with the same arguments, on one
    cache that has not seen them, runs the underlying computation exactly
    once (the call counter goes up by one over the two calls) and both
    calls return the same result. *)
Theorem wrapper_twice_runs_once args kwargs (s : counted K V W) v w :
  cs_cache s !! make_key args kwargs = None →
  f args kwargs (cs_world s) = (Ok v, w) →
  ∃ s1 s2,
    counted_wrapper f args kwargs s = (Ok v, s1) ∧
    counted_wrapper f args kwargs s1 = (Ok v, s2) ∧
    cs_calls s2 = S (cs_calls s).
Proof.
  intros Hk Hf.
  eexists _, _. split; [by apply counted_miss_ok |].
  split; [apply counted_hit; simpl; apply lookup_insert_eq | reflexivity].
Qed.

(** C6. When the wrapped operation raises, the exception reaches the
    caller, the dictionary is left as it was (no entry for the key), and
    the next call with the same arguments runs the operation again. *)
Theorem wrapper_raise_not_stored args kwargs (s : counted K V W) e w :
  cs_cache s !! make_key args kwargs = None →
  f args kwargs (cs_world s) = (Raise e, w) →
  ∃ s1,
    counted_wrapper f args kwargs s = (Raise e, s1) ∧
    cs_cache s1 = cs_cache s ∧
    cs_cache s1 !! make_key args kwargs = None ∧
    cs_calls s1 = S (cs_calls s) ∧
    ∀ r s2, counted_wrapper f args kwargs s1 = (r, s2) →
            cs_calls s2 = S (S (cs_calls s)).
Proof.
  intros Hk Hf. eexists. split; [by apply counted_miss_raise |].
  simpl. repeat split; try done.
  intros r s2. destruct (f args kwargs w) as [[v|e'] w'] eqn:Hf2.
  - erewrite counted_miss_ok by done. by intros [= <- <-].
  - erewrite counted_miss_raise by done. by intros [= <- <-].
Qed.

(** C7 (as the code has it). After a first successful call on a fresh
    cache, a second call is answered from the cache (the operation does
    not run again) exactly when its positional arguments are equal in
    order and its keyword arguments are the same (name, value) pairs in
    the same order. *)
Theorem key_hit_iff_same_order a1 k1 a2 k2 (s : counted K V W) v w :
  cs_cache s = ∅ →
  f a1 k1 (cs_world s) = (Ok v, w) →
  ∃ s1, counted_wrapper f a1 k1 s = (Ok v, s1) ∧
    (make_key a1 k1 = make_key a2 k2 ↔ a1 = a2 ∧ k1 = k2) ∧
    ∀ r s2, counted_wrapper f a2 k2 s1 = (r, s2) →
            (cs_calls s2 = cs_calls s1 ↔ a1 = a2 ∧ k1 = k2).
Proof.
  intros Hs Hf. eexists. split.
  { apply counted_miss_ok; [by rewrite Hs | done]. }
  split.
  { unfold make_key. split; [by intros [= -> ->] | by intros [-> ->]]. }
  intros r s2. destruct (decide (make_key a1 k1 = make_key a2 k2)) as [Heq|Hne].
  - injection Heq as <- <-.
    erewrite counted_hit by (simpl; apply lookup_insert_eq).
    by intros [= <- <-].
  - assert (Hnone : <[make_key a1 k1:=v]> (cs_cache s) !! make_key a2 k2 = None).
    { rewrite lookup_insert_ne by done. by rewrite Hs. }
    destruct (f a2 k2 w) as [[v'|e'] w'] eqn:Hf2.
    + erewrite counted_miss_ok by done. intros [= <- <-]. simpl.
      split; [lia | intros [-> ->]; done].
    + erewrite counted_miss_raise by done. intros [= <- <-]. simpl.
      split; [lia | intros [-> ->]; done].
Qed.
End counted_facts.

(** C7, counterexample: the same two keyword arguments passed in the
    other order name the same mapping but give a different key, and the
    second call runs the operation again. *)
Lemma kwargs_order_changes_key :
  let f : list Z → list (string * Z) → M () Z := λ _ _ w, (Ok 0%Z, w) in
  let kw1 := [("a", 1%Z); ("b", 2%Z)] in
  let kw2 := [("b", 2%Z); ("a", 1%Z)] in
  let s0 : counted Z Z () := Counted ∅ () 0 in
  (list_to_map kw1 : gmap string Z) = list_to_map kw2 ∧
  make_key [] kw1 ≠ make_key [] kw2 ∧
  cs_calls ((counted_wrapper f [] kw1 ≫= λ _, counted_wrapper f [] kw2) s0).2
  = 2.
Proof.
  split; [| split].
  - apply map_eq. intros i. simpl.
    destruct (decide (i = "a")) as [->|]; [done|].
    destruct (decide (i = "b")) as [->|]; [done|].
    by rewrite !lookup_insert_ne.
  - discriminate.
  - unfold mbind, M_bind.
    erewrite (counted_miss_ok (W:=())) by (simpl; done).
    erewrite (counted_miss_ok (W:=())); [ reflexivity | | simpl; done].
    simpl. by rewrite lookup_insert_ne.
Qed.

Lemma wrapper_twice_runs_once_witness :
  let f : list Z → list (string * Z) → M () Z :=
    λ args _ w, (Ok (foldr Z.add 0%Z args), w) in
  let s0 : counted Z Z () := Counted ∅ () 0 in
  ∃ s1 s2,
    counted_wrapper f [1%Z; 2%Z] [] s0 = (Ok 3%Z, s1) ∧
    counted_wrapper f [1%Z; 2%Z] [] s1 = (Ok 3%Z, s2) ∧
    cs_calls s2 = 1.
Proof.
  apply (wrapper_twice_runs_once
           (λ args _ w, (Ok (foldr Z.add 0%Z args), w))
           [1%Z; 2%Z] [] (Counted ∅ () 0) 3%Z ()); reflexivity.
Defined.

Lemma wrapper_raise_not_stored_witness :
  let f : list Z → list (string * Z) → M () Z :=
    λ _ _ w, (Raise ValueError, w) in
  let s0 : counted Z Z () := Counted ∅ () 0 in
  ∃ s1,
    counted_wrapper f [1%Z] [] s0 = (Raise ValueError, s1) ∧
    cs_cache s1 = cs_cache s0 ∧
    cs_cache s1 !! make_key [1%Z] [] = None ∧
    cs_calls s1 = 1 ∧
    ∀ r s2, counted_wrapper f [1%Z] [] s1 = (r, s2) → cs_calls s2 = 2.
Proof.
  apply (wrapper_raise_not_stored
           (λ _ _ w, (Raise ValueError, w))
           [1%Z] [] (Counted ∅ () 0) ValueError ()); reflexivity.
Defined.

Lemma key_hit_iff_same_order_witness :
  let f : list Z → list (string * Z) → M () Z := λ _ _ w, (Ok 0%Z, w) in
  let kw1 := [("a", 1%Z); ("b", 2%Z)] in
  let kw2 := [("b", 2%Z); ("a", 1%Z)] in
  let s0 : counted Z Z () := Counted ∅ () 0 in
  ∃ s1, counted_wrapper f [] kw1 s0 = (Ok 0%Z, s1) ∧
    (make_key [] kw1 = make_key [] kw2 ↔ [] = ([] : list Z) ∧ kw1 = kw2) ∧
    ∀ r s2, counted_wrapper f [] kw2 s1 = (r, s2) →
            (cs_calls s2 = cs_calls s1 ↔ [] = ([] : list Z) ∧ kw1 = kw2).
Proof.
  apply (key_hit_iff_same_order
           (λ _ _ w, (Ok 0%Z, w))
           [] [("a", 1%Z); ("b", 2%Z)] [] [("b", 2%Z); ("a", 1%Z)]
           (Counted ∅ () 0) 0%Z ()); reflexivity.
Defined.
End CacheFacts.

(** * Properties of the pandas operations *)

Module PandasFacts.
Import Pandas.

Lemma Qltb_lt x y : Qltb x y = true ↔ (x < y)%Q.
Proof.
  unfold Qltb. rewrite negb_true_iff, <- not_true_iff_false, Qle_bool_iff.
  split; [apply Qnot_le_lt | apply Qlt_not_le].
Qed.

Lemma length_index (s : Series) : length (index s) = length s.
Proof. apply length_fmap. Qed.

Lemma length_values (s : Series) : length (values s) = length s.
Proof. apply length_fmap. Qed.

Lemma index_with_values (s : Series) vs :
  length vs = length s → index (with_values s vs) = index s.
Proof.
  intros Hl. unfold with_values, index at 1.
  apply fst_zip. rewrite length_index. lia.
Qed.

Lemma values_with_values (s : Series) vs :
  length vs = length s → values (with_values s vs) = vs.
Proof.
  intros Hl. unfold with_values, values.
  apply snd_zip. rewrite length_index. lia.
Qed.

Lemma with_values_values (s : Series) : with_values s (values s) = s.
Proof. unfold with_values, index, values. apply zip_fst_snd. Qed.

(** ** [shift] *)

Lemma length_shift k t : length (shift k t) = length t.
Proof.
  unfold shift. destruct (0 <=? k)%Z;
    rewrite length_app, length_replicate, ?length_take, ?length_drop; lia.
Qed.

Lemma shift_down_lookup (k : nat) t i :
  i < length t →
  shift (Z.of_nat k) t !! i
  = Some (if decide (i < k) then NaN else default NaN (t !! (i - k))).
Proof.
  intros Hi. unfold shift.
  rewrite (proj2 (Z.leb_le 0 (Z.of_nat k))) by lia.
  rewrite Nat2Z.id. case_decide as Hk.
  - rewrite lookup_app_l by (rewrite length_replicate; lia).
    apply lookup_replicate_2. lia.
  - rewrite lookup_app_r by (rewrite length_replicate; lia).
    rewrite length_replicate, Nat.min_l by lia.
    rewrite lookup_take_lt by lia.
    destruct (lookup_lt_is_Some_2 t (i - k)) as [x Hx]; [lia|].
    by rewrite Hx.
Qed.

Lemma shift_up_lookup (k : nat) t i :
  0 < k → i < length t →
  shift (- Z.of_nat k) t !! i = Some (default NaN (t !! (i + k))).
Proof.
  intros Hk Hi. unfold shift.
  rewrite (proj2 (Z.leb_gt 0 (- Z.of_nat k))) by lia.
  rewrite Z.opp_involutive, Nat2Z.id.
  destruct (decide (i + k < length t)) as [Hlt|Hge].
  - rewrite lookup_app_l by (rewrite length_drop; lia).
    rewrite lookup_drop, (Nat.add_comm k i).
    destruct (lookup_lt_is_Some_2 t (i + k)) as [x Hx]; [lia|].
    by rewrite Hx.
  - rewrite lookup_app_r by (rewrite length_drop; lia).
    rewrite (lookup_ge_None_2 t (i + k)) by lia. simpl.
    apply lookup_replicate_2. rewrite length_drop. lia.
Qed.

(** ** [find_extremes]: the masks and the selection *)

Lemma lookup_lt_mask a b i :
  lt a b !! i = x ← a !! i; y ← b !! i; Some (cell_ltb x y).
Proof. unfold lt. apply lookup_zip_with. Qed.

Lemma lookup_gt_mask a b i :
  gt a b !! i = x ← a !! i; y ← b !! i; Some (cell_ltb y x).
Proof.
  unfold gt. rewrite lookup_zip_with.
  destruct (a !! i), (b !! i); reflexivity.
Qed.

Lemma cell_ltb_NaN_l c : cell_ltb NaN c = false.
Proof. reflexivity. Qed.

Lemma cell_ltb_NaN_r c : cell_ltb c NaN = false.
Proof. by destruct c. Qed.

Lemma max_mask t :
  and_mask (lt (shift 1 t) t) (lt (shift (-1) t) t)
  = is_local_max t <$> seq 0 (length t).
Proof.
  apply list_eq. intros i. unfold and_mask.
  rewrite lookup_zip_with, !lookup_lt_mask, list_lookup_fmap.
  destruct (decide (i < length t)) as [Hi|Hi].
  2: { rewrite (lookup_ge_None_2 t i) by lia.
       rewrite (lookup_ge_None_2 (seq _ _) i) by (rewrite length_seq; lia).
       by destruct (shift 1 t !! i). }
  rewrite lookup_seq_lt by done. simpl.
  change 1%Z with (Z.of_nat 1). change (-1)%Z with (- Z.of_nat 1)%Z.
  rewrite shift_down_lookup, shift_up_lookup by (done || lia).
  destruct (lookup_lt_is_Some_2 t i Hi) as [b Hb]. rewrite Hb. simpl.
  unfold is_local_max, neighbours.
  destruct i as [|j].
  - by rewrite decide_True by lia.
  - rewrite decide_False by lia.
    replace (S j - 1) with j by lia. replace (S j + 1) with (S (S j)) by lia.
    destruct (lookup_lt_is_Some_2 t j) as [a Ha]; [lia|].
    rewrite Ha, Hb. simpl.
    destruct (t !! S (S j)) as [c|]; simpl; [done|].
    by rewrite ?cell_ltb_NaN_l, ?andb_false_r.
Qed.

Lemma min_mask t :
  and_mask (gt (shift 1 t) t) (gt (shift (-1) t) t)
  = is_local_min t <$> seq 0 (length t).
Proof.
  apply list_eq. intros i. unfold and_mask.
  rewrite lookup_zip_with, !lookup_gt_mask, list_lookup_fmap.
  destruct (decide (i < length t)) as [Hi|Hi].
  2: { rewrite (lookup_ge_None_2 t i) by lia.
       rewrite (lookup_ge_None_2 (seq _ _) i) by (rewrite length_seq; lia).
       by destruct (shift 1 t !! i). }
  rewrite lookup_seq_lt by done. simpl.
  change 1%Z with (Z.of_nat 1). change (-1)%Z with (- Z.of_nat 1)%Z.
  rewrite shift_down_lookup, shift_up_lookup by (done || lia).
  destruct (lookup_lt_is_Some_2 t i Hi) as [b Hb]. rewrite Hb. simpl.
  unfold is_local_min, neighbours.
  destruct i as [|j].
  - rewrite decide_True by lia. by rewrite ?cell_ltb_NaN_r.
  - rewrite decide_False by lia.
    replace (S j - 1) with j by lia. replace (S j + 1) with (S (S j)) by lia.
    destruct (lookup_lt_is_Some_2 t j) as [a Ha]; [lia|].
    rewrite Ha, Hb. simpl.
    destruct (t !! S (S j)) as [c|]; simpl; [done|].
    by rewrite ?cell_ltb_NaN_r, ?andb_false_r.
Qed.

Lemma omap_ext_elem_of {A B} (f g : A → option B) (l : list A) :
  (∀ x, x ∈ l → f x = g x) → omap f l = omap g l.
Proof.
  induction l as [|x l IH]; intros Hfg; [done|].
  csimpl. rewrite (Hfg x) by left.
  rewrite IH; [done|]. intros y Hy. apply Hfg. by right.
Qed.

(** Selecting by the mask [P 0, P 1, ...] keeps the rows at the
    positions where [P] holds. *)
Lemma select_positions_from (P : nat → bool) (s : Series) k :
  select s (P <$> seq k (length s))
  = omap (λ i, s !! (i - k)) (filter (λ i, P i = true) (seq k (length s))).
Proof.
  revert k. induction s as [|row s IH]; intros k; [done|].
  assert (Htail :
    omap (λ i, (row :: s) !! (i - k))
      (filter (λ i, P i = true) (seq (S k) (length s)))
    = omap (λ i, s !! (i - S k))
        (filter (λ i, P i = true) (seq (S k) (length s)))).
  { apply omap_ext_elem_of. intros i [_ Hi%elem_of_seq]%list_elem_of_filter.
    replace (i - k) with (S (i - S k)) by lia. done. }
  specialize (IH (S k)). unfold select in *. simpl.
  rewrite filter_cons, (filter_cons (λ i, P i = true)). simpl.
  destruct (P k) eqn:HP.
  - rewrite !decide_True by done. csimpl.
    rewrite Nat.sub_diag. csimpl. f_equal.
    etrans; [apply IH|]. symmetry. apply Htail.
  - rewrite !decide_False by done.
    etrans; [apply IH|]. symmetry. apply Htail.
Qed.

Lemma select_positions (P : nat → bool) (s : Series) :
  select s (P <$> seq 0 (length s)) = rows_where P s.
Proof.
  rewrite select_positions_from. unfold rows_where.
  apply omap_ext_elem_of. intros i _. by rewrite Nat.sub_0_r.
Qed.

(** A row is kept exactly when its position satisfies the predicate. *)
Lemma elem_of_rows_where (P : nat → bool) (s : Series) row :
  row ∈ rows_where P s ↔ ∃ i, s !! i = Some row ∧ P i = true.
Proof.
  unfold rows_where. rewrite list_elem_of_omap. split.
  - intros (i & [HP _]%list_elem_of_filter & Hi). eauto.
  - intros (i & Hi & HP). exists i. split; [|done].
    apply list_elem_of_filter. split; [done|].
    apply elem_of_seq. apply lookup_lt_Some in Hi. lia.
Qed.

Lemma rows_where_sublist (P : nat → bool) (s : Series) :
  sublist (rows_where P s) s.
Proof.
  rewrite <- select_positions. unfold select.
  pose proof (fmap_sublist fst _ _
    (sublist_filter (λ p : label * cell * bool, p.2 = true)
       (zip s (P <$> seq 0 (length s))))) as Hsub.
  by rewrite fst_zip in Hsub by (rewrite length_fmap, length_seq; lia).
Qed.

(** ** Column assignment: alignment to the frame's index *)

Lemma series_get_Some_elem_of l (s : Series) v :
  series_get l s = Some v → (l, v) ∈ s.
Proof.
  induction s as [|[l' v'] s IH]; [done|]. simpl.
  case_decide as Hl.
  - intros [= ->]. subst. left.
  - intros Hg. right. by apply IH.
Qed.

Lemma series_get_None l (s : Series) :
  series_get l s = None ↔ l ∉ index s.
Proof.
  unfold index. induction s as [|[l' v'] s IH]; simpl.
  - split; [intros _; apply not_elem_of_nil | done].
  - rewrite not_elem_of_cons. case_decide as Hl.
    + split; [done | intros [Hne _]; by subst].
    + rewrite IH. split; [intros ?; split; [congruence | done] | tauto].
Qed.

Lemma series_get_NoDup l (s : Series) v :
  NoDup (index s) → (l, v) ∈ s → series_get l s = Some v.
Proof.
  unfold index. induction s as [|[l' v'] s IH]; simpl.
  - intros _ Hin. by apply elem_of_nil in Hin.
  - intros [Hnotin Hnd]%NoDup_cons [Heq|Hin]%elem_of_cons.
    + injection Heq as -> ->. by rewrite decide_True.
    + case_decide as Hl; [|by apply IH].
      subst. exfalso. apply Hnotin.
      apply list_elem_of_fmap. by exists (l, v).
Qed.

Lemma series_lookup_label (s : Series) i l v :
  s !! i = Some (l, v) → index s !! i = Some l ∧ values s !! i = Some v.
Proof.
  intros Hi. unfold index, values. rewrite !list_lookup_fmap. rewrite Hi. done.
Qed.

(** Re-indexing a Series onto its own index gives back its values. *)
Lemma values_by_label (s : Series) :
  NoDup (index s) →
  values s = (λ l, default NaN (series_get l s)) <$> index s.
Proof.
  intros Hnd. apply list_eq. intros i.
  unfold values at 1, index at 1. rewrite !list_lookup_fmap.
  destruct (s !! i) as [[l v]|] eqn:Hi; simpl; [|done].
  rewrite (series_get_NoDup l s v); [done | done |].
  by apply list_elem_of_lookup_2 in Hi.
Qed.

Lemma reindex_NoDup (s : Series) idx :
  NoDup (index s) →
  reindex s idx = Ok ((λ l, default NaN (series_get l s)) <$> idx).
Proof.
  intros Hnd. unfold reindex. case_decide as Heq.
  - subst. by rewrite <- values_by_label.
  - by rewrite decide_True.
Qed.

Lemma reindex_same_index (s : Series) idx :
  index s = idx → reindex s idx = Ok (values s).
Proof. intros Heq. unfold reindex. by rewrite decide_True. Qed.

Lemma rows_where_NoDup (P : nat → bool) (s : Series) :
  NoDup (index s) → NoDup (index (rows_where P s)).
Proof.
  intros Hnd. eapply sublist_NoDup; [exact Hnd|].
  apply fmap_sublist, rows_where_sublist.
Qed.

(** With distinct labels, aligning the selected rows back to the full
    index leaves each selected value in its row and NaN in the others. *)
Lemma reindex_rows_where (P : nat → bool) (s : Series) :
  NoDup (index s) →
  reindex (rows_where P s) (index s) = Ok (sparse_column P (values s)).
Proof.
  intros Hnd. rewrite reindex_NoDup by by apply rows_where_NoDup.
  f_equal. apply list_eq. intros i.
  unfold sparse_column. rewrite list_lookup_imap.
  unfold index at 1, values. rewrite !list_lookup_fmap.
  destruct (s !! i) as [[l v]|] eqn:Hi; simpl; [|done].
  f_equal. destruct (P i) eqn:HP.
  - rewrite (series_get_NoDup l _ v); [done | by apply rows_where_NoDup |].
    apply elem_of_rows_where. eauto.
  - destruct (series_get l (rows_where P s)) as [v'|] eqn:Hg; [|done].
    apply series_get_Some_elem_of, elem_of_rows_where in Hg
      as (j & Hj & HPj).
    apply series_lookup_label in Hi as [Hi _].
    apply series_lookup_label in Hj as [Hj _].
    assert (i = j) by (eapply NoDup_lookup; eauto). congruence.
Qed.

Lemma length_sparse_column (P : nat → bool) t :
  length (sparse_column P t) = length t.
Proof. apply length_imap. Qed.

Lemma lookup_sparse_column (P : nat → bool) t i :
  sparse_column P t !! i
  = (λ v, if P i then v else NaN) <$> t !! i.
Proof. apply list_lookup_imap. Qed.

(** ** Lengths of the derived columns *)

Lemma length_diff t : length (diff t) = length t.
Proof. unfold diff. rewrite length_zip_with, length_shift. lia. Qed.

Lemma length_rolling_mean w t vs :
  rolling_mean w t = Ok vs → length vs = length t.
Proof.
  unfold rolling_mean. case_match; [done|].
  intros [= <-]. by rewrite length_fmap, length_seq.
Qed.

Lemma rolling_mean_Ok w t :
  (0 <= w)%Z → ∃ vs, rolling_mean w t = Ok vs ∧ length vs = length t.
Proof.
  intros Hw. unfold rolling_mean.
  rewrite (proj2 (Z.ltb_ge w 0)) by done.
  eexists. split; [done|]. by rewrite length_fmap, length_seq.
Qed.

(** ** Correlation *)

Section correlation.
Local Open Scope R_scope.

Lemma dot_cons x a y b : dot (x :: a) (y :: b) = x * y + dot a b.
Proof. reflexivity. Qed.

Lemma dot_self_nonneg a : 0 <= dot a a.
Proof.
  induction a as [|x a IH]; [unfold dot, Rsum; simpl; lra|].
  rewrite dot_cons. nra.
Qed.

(** Cauchy-Schwarz. *)
Lemma dot_cauchy_schwarz a b :
  length a = length b → dot a b * dot a b <= dot a a * dot b b.
Proof.
  revert b. induction a as [|x a IH]; intros [|y b] Hl;
    [unfold dot, Rsum; simpl; lra | done | done |].
  injection Hl as Hl. specialize (IH b Hl).
  rewrite !dot_cons.
  pose proof (dot_self_nonneg a) as HA. pose proof (dot_self_nonneg b) as HB.
  set (A := dot a a) in *. set (B := dot b b) in *. set (D := dot a b) in *.
  clearbody A B D.
  assert (Hadj : 0 <= x * x * B - 2 * (x * y * D) + y * y * A).
  { destruct (Req_dec_T A 0) as [HA0|HA0].
    - assert (D = 0) by nra. subst D. rewrite HA0. nra.
    - assert (0 < A) by lra.
      assert (0 <= A * (x * x * B - 2 * (x * y * D) + y * y * A)).
      { replace (A * (x * x * B - 2 * (x * y * D) + y * y * A))
          with (x * x * (A * B - D * D) + (x * D - y * A) * (x * D - y * A))
          by ring.
        assert (0 <= x * x * (A * B - D * D))
          by (apply Rmult_le_pos; [nra | lra]).
        pose proof (Rle_0_sqr (x * D - y * A)) as Hsq.
        unfold Rsqr in Hsq. lra. }
      apply (Rmult_le_reg_l A); [done|]. lra. }
  lra.
Qed.

Lemma sum_products_dot xs ys :
  sum_products xs ys
  = dot ((λ x, x - Rmean xs) <$> xs) ((λ y, y - Rmean ys) <$> ys).
Proof.
  unfold sum_products, dot. f_equal.
  generalize (Rmean xs) (Rmean ys). intros mx my.
  revert ys. induction xs as [|x xs IH]; intros [|y ys]; simpl; try done.
  by rewrite IH.
Qed.

Lemma sum_products_self_nonneg xs : 0 <= sum_products xs xs.
Proof. rewrite sum_products_dot. apply dot_self_nonneg. Qed.

Lemma sum_products_cauchy_schwarz xs ys :
  length xs = length ys →
  sum_products xs ys * sum_products xs ys
  <= sum_products xs xs * sum_products ys ys.
Proof.
  intros Hl. rewrite !sum_products_dot.
  apply dot_cauchy_schwarz. by rewrite !length_fmap.
Qed.

Lemma Rmean_singleton x : Rmean [x] = x.
Proof. unfold Rmean, Rsum. simpl. field. Qed.

Lemma sum_products_short xs : (length xs ≤ 1)%nat → sum_products xs xs = 0.
Proof.
  intros Hl. destruct xs as [|x [|??]]; simpl in Hl; try lia.
  - reflexivity.
  - unfold sum_products. rewrite Rmean_singleton. simpl. ring.
Qed.

Lemma clip_id lo hi x : lo <= x → x <= hi → clip lo hi x = x.
Proof.
  intros Hlo Hhi. unfold clip.
  rewrite (Rmin_right hi x) by done. by apply Rmax_right.
Qed.

Lemma clip_bounds lo hi x : lo <= hi → lo <= clip lo hi x <= hi.
Proof.
  intros Hle. unfold clip, Rmax, Rmin.
  repeat destruct (Rle_dec _ _); lra.
Qed.

(** *** The steps of numpy in exact arithmetic *)

Lemma foldl_Rplus a l : foldl Rplus a l = a + Rsum l.
Proof.
  revert a. induction l as [|x l IH]; intros a.
  - unfold Rsum. simpl. ring.
  - simpl. rewrite IH. change (Rsum (x :: l)) with (x + Rsum l). ring.
Qed.

Lemma np_sum_exact l : np_sum exact l = Rsum l.
Proof. unfold np_sum. simpl. rewrite foldl_Rplus. ring. Qed.

Lemma np_mean_exact l : np_mean exact l = Rmean l.
Proof.
  unfold np_mean, Rmean. simpl. by rewrite np_sum_exact, INR_IZR_INZ.
Qed.

Lemma np_dot_exact a b : np_dot exact a b = dot a b.
Proof. unfold np_dot, dot. simpl. apply np_sum_exact. Qed.

Lemma cov_exact xs ys :
  cov exact xs ys = sum_products xs ys / (INR (length xs) - 1).
Proof.
  unfold cov, centred. rewrite np_dot_exact, !np_mean_exact.
  rewrite sum_products_dot. simpl.
  rewrite minus_IZR, <- INR_IZR_INZ. unfold Rdiv. ring.
Qed.

(** Pearson's coefficient lies between -1 and 1. *)
Lemma pearson_bounds xs ys :
  length xs = length ys →
  sum_products xs xs ≠ 0 → sum_products ys ys ≠ 0 →
  -1 <= sum_products xs ys / sqrt (sum_products xs xs * sum_products ys ys)
  <= 1.
Proof.
  intros Hl Hsx Hsy.
  pose proof (sum_products_self_nonneg xs) as Hx.
  pose proof (sum_products_self_nonneg ys) as Hy.
  pose proof (sum_products_cauchy_schwarz xs ys Hl) as Hcs.
  set (sx := sum_products xs xs) in *. set (sy := sum_products ys ys) in *.
  set (sxy := sum_products xs ys) in *.
  clearbody sx sy sxy.
  assert (Hs : 0 < sqrt (sx * sy)) by (apply sqrt_lt_R0; nra).
  assert (Hsqrt : sqrt (sx * sy) * sqrt (sx * sy) = sx * sy)
    by (apply sqrt_sqrt; nra).
  set (s := sqrt (sx * sy)) in *. clearbody s.
  split.
  - apply (Rmult_le_reg_r s); [done|].
    replace (sxy / s * s) with sxy by (field; lra). nra.
  - apply (Rmult_le_reg_r s); [done|].
    replace (sxy / s * s) with sxy by (field; lra). nra.
Qed.

(** In exact arithmetic the coefficient numpy computes is Pearson's: the
    [ddof] factors cancel. *)
Lemma corrcoef_exact xs ys :
  length xs = length ys →
  sum_products xs xs ≠ 0 → sum_products ys ys ≠ 0 →
  corrcoef exact xs ys
  = sum_products xs ys / sqrt (sum_products xs xs * sum_products ys ys).
Proof.
  intros Hl Hsx Hsy. unfold corrcoef. rewrite !cov_exact, <- Hl. simpl.
  pose proof (sum_products_self_nonneg xs) as Hx.
  pose proof (sum_products_self_nonneg ys) as Hy.
  assert (Hd : 0 < INR (length xs) - 1).
  { destruct (decide (length xs ≤ 1)%nat) as [Hle|Hgt].
    - by apply sum_products_short in Hle.
    - assert (2 <= length xs)%nat as Hge by lia.
      apply le_INR in Hge. simpl in Hge. lra. }
  set (d := INR (length xs) - 1) in *.
  set (sx := sum_products xs xs) in *. set (sy := sum_products ys ys) in *.
  set (sxy := sum_products xs ys) in *.
  clearbody d sx sy sxy.
  assert (Hsxp : 0 < sx) by lra. assert (Hsyp : 0 < sy) by lra.
  assert (Hsq : sqrt (sx / d) * sqrt (sy / d) = sqrt (sx * sy) / d).
  { rewrite <- sqrt_mult by (apply Rlt_le, Rdiv_lt_0_compat; lra).
    replace (sx / d * (sy / d)) with (sx * sy / (d * d)) by (field; lra).
    rewrite sqrt_div_alt by nra. by rewrite sqrt_square by lra. }
  assert (Hs : 0 < sqrt (sx * sy)) by (apply sqrt_lt_R0; nra).
  assert (0 < sqrt (sx / d)) by (apply sqrt_lt_R0, Rdiv_lt_0_compat; lra).
  assert (0 < sqrt (sy / d)) by (apply sqrt_lt_R0, Rdiv_lt_0_compat; lra).
  replace (sxy / d / sqrt (sx / d) / sqrt (sy / d))
    with (sxy / d / (sqrt (sx / d) * sqrt (sy / d))) by (field; lra).
  rewrite Hsq. field. lra.
Qed.

Lemma corrcoef_exact_pearson xs ys :
  length xs = length ys →
  sum_products xs xs ≠ 0 → sum_products ys ys ≠ 0 →
  Some (clip (-1) 1 (corrcoef exact xs ys)) = pearson xs ys.
Proof.
  intros Hl Hsx Hsy. unfold pearson.
  destruct (Req_dec_T (sum_products xs xs) 0) as [|_]; [done|].
  destruct (Req_dec_T (sum_products ys ys) 0) as [|_]; [done|].
  f_equal. rewrite corrcoef_exact by done.
  apply clip_id; by apply pearson_bounds.
Qed.

(** The two samples can be exchanged. *)
Lemma sum_products_comm xs ys : sum_products xs ys = sum_products ys xs.
Proof.
  unfold sum_products. f_equal.
  generalize (Rmean xs) (Rmean ys). intros mx my.
  revert ys. induction xs as [|x xs IH]; intros [|y ys]; try done.
  simpl. rewrite IH. f_equal. ring.
Qed.

Lemma corrcoef_exact_comm xs ys :
  length xs = length ys → corrcoef exact xs ys = corrcoef exact ys xs.
Proof.
  intros Hl. unfold corrcoef. rewrite !cov_exact, <- Hl. simpl.
  rewrite (sum_products_comm ys xs). unfold Rdiv. ring.
Qed.

(** *** What holds of the float64 coefficient whatever the rounding *)

Lemma clipped_in_range f r : clipped f = Some r → -1 <= r <= 1.
Proof.
  unfold clipped. destruct (FloatOps.Prim2SF f) as [s|s| |s m e]; try done.
  - intros [= <-]. lra.
  - intros [= <-]. destruct s; lra.
  - intros [= <-]. apply clip_bounds. lra.
Qed.

Lemma corr_in_range a b r : corr a b = Some r → -1 <= r <= 1.
Proof.
  unfold corr, corrcoef_0_1. repeat case_match; try done.
  apply clipped_in_range.
Qed.

(** At most one pair of observations gives no coefficient. *)
Lemma corr_one_pair a b :
  (length (valid_pairs a b) ≤ 1)%nat → corr a b = None.
Proof.
  intros Hl. unfold corr.
  destruct (valid_pairs a b) as [|p [|??]]; simpl in Hl; try lia; [done|].
  reflexivity.
Qed.

(** With two pairs or more it is the clipped double of [corrcoef]. *)
Lemma corr_pairs a b :
  (2 ≤ length (valid_pairs a b))%nat →
  corr a b = clipped (corrcoef float64
                        (float_of_Q <$> (valid_pairs a b).*1)
                        (float_of_Q <$> (valid_pairs a b).*2)).
Proof.
  intros Hl. unfold corr, corrcoef_0_1.
  destruct (valid_pairs a b) as [|p [|??]]; simpl in Hl; try lia.
  reflexivity.
Qed.

Lemma corr_value a b s m e :
  (2 ≤ length (valid_pairs a b))%nat →
  FloatOps.Prim2SF (corrcoef float64 (float_of_Q <$> (valid_pairs a b).*1)
                                     (float_of_Q <$> (valid_pairs a b).*2))
  = SpecFloat.S754_finite s m e →
  corr a b = Some (clip (-1) 1 (finite_value s m e)).
Proof.
  intros Hl Hf. rewrite corr_pairs by done. unfold clipped. by rewrite Hf.
Qed.


Lemma valid_pairs_nil_l b : valid_pairs [] b = [].
Proof. reflexivity. Qed.

Lemma valid_pairs_NaN_r a m : valid_pairs a (replicate m NaN) = [].
Proof.
  unfold valid_pairs. revert m.
  induction a as [|x a IH]; intros [|m]; try done.
  csimpl. rewrite IH. by destruct x.
Qed.

Lemma valid_pairs_app a1 a2 b1 b2 :
  length a1 = length b1 →
  valid_pairs (a1 ++ a2) (b1 ++ b2) = valid_pairs a1 b1 ++ valid_pairs a2 b2.
Proof.
  intros Hl. unfold valid_pairs.
  by rewrite zip_with_app, omap_app.
Qed.

(** The rows that survive in [corr(shift(k))] are the overlap of the
    series with itself [k] rows earlier. *)
Lemma valid_pairs_shift (k : nat) t :
  valid_pairs t (shift (Z.of_nat k) t)
  = valid_pairs (drop k t) (take (length t - k) t).
Proof.
  unfold shift. rewrite (proj2 (Z.leb_le 0 (Z.of_nat k))) by lia.
  rewrite Nat2Z.id.
  rewrite <- (take_drop (k `min` length t) t) at 1.
  rewrite valid_pairs_app
    by (rewrite length_take, length_replicate; lia).
  rewrite valid_pairs_NaN_r. simpl.
  destruct (decide (k ≤ length t)) as [Hk|Hk].
  - by rewrite Nat.min_l.
  - rewrite Nat.min_r by lia.
    by rewrite !drop_ge by lia.
Qed.

Lemma autocorr_overlap (k : nat) t :
  autocorr (Z.of_nat k) t = corr (drop k t) (take (length t - k) t).
Proof. unfold autocorr, corr. by rewrite valid_pairs_shift. Qed.

(** An out-of-range lag leaves no overlap. *)
Lemma autocorr_lag_ge lag t :
  (Z.of_nat (length t) <= lag)%Z → autocorr lag t = None.
Proof.
  intros Hlag. rewrite <- (Z2Nat.id lag) by lia.
  rewrite autocorr_overlap. apply corr_one_pair.
  rewrite drop_ge by lia. rewrite valid_pairs_nil_l. simpl. lia.
Qed.

Lemma valid_pairs_elem_of a b x y :
  (x, y) ∈ valid_pairs a b → Num x ∈ a ∧ Num y ∈ b.
Proof.
  unfold valid_pairs. rewrite list_elem_of_omap.
  intros ([u v] & Hin & Hf).
  destruct u as [|p]; [done|]. destruct v as [|q]; [done|].
  injection Hf as -> ->.
  apply elem_of_zip_with in Hin as (? & ? & [= <- <-] & ? & ?). done.
Qed.




Section variance.
Local Open Scope R_scope.






Lemma pearson_self xs : sum_products xs xs ≠ 0 → pearson xs xs = Some 1.
Proof.
  intros Hne. unfold pearson.
  destruct (Req_dec_T (sum_products xs xs) 0) as [|_]; [done|].
  f_equal. pose proof (sum_products_self_nonneg xs).
  rewrite sqrt_square by done. by field.
Qed.

Lemma pearson_constant_l xs ys :
  sum_products xs xs = 0 → pearson xs ys = None.
Proof.
  intros Hz. unfold pearson.
  by destruct (Req_dec_T (sum_products xs xs) 0).
Qed.
End variance.



Lemma valid_pairs_length_le a b : length (valid_pairs a b) ≤ length a.
Proof.
  unfold valid_pairs. revert b.
  induction a as [|x a IH]; intros [|y b]; csimpl; simpl; try lia.
  specialize (IH b). destruct x, y; simpl; lia.
Qed.



End correlation.
End PandasFacts.

(** * Properties of the processor *)

Module ProcessorFacts.
Import Cache Pandas WeatherDataProcessor CacheFacts PandasFacts.

(** ** The monad *)

Lemma bind_ok {S A B} (m : M S A) (k : A → M S B) s a s' :
  m s = (Ok a, s') → (m ≫= k) s = k a s'.
Proof. intros Hm. unfold mbind, M_bind. by rewrite Hm. Qed.

Lemma bind_raise {S A B} (m : M S A) (k : A → M S B) s e s' :
  m s = (Raise e, s') → (m ≫= k) s = (Raise e, s').
Proof. intros Hm. unfold mbind, M_bind. by rewrite Hm. Qed.

(** ** Growth of the dictionaries *)

Lemma grows_map_refl {V} (o : option pyval) (m : gmap pykey V) : grows_map o m m.
Proof. intros k. by left. Qed.

Lemma grows_map_trans {V} (o : option pyval) (m1 m2 m3 : gmap pykey V) :
  grows_map o m1 m2 → grows_map o m2 m3 → grows_map o m1 m3.
Proof.
  intros H12 H23 k.
  destruct (H23 k) as [E23|[Hn Hs]], (H12 k) as [E12|[Hn' Hs']].
  - left. congruence.
  - by right.
  - right. split; [congruence | done].
  - by right.
Qed.

Lemma grows_map_insert {V} (m : gmap pykey V) k v :
  m !! k = None → grows_map (key_self k) m (<[k := v]> m).
Proof.
  intros Hk k'. destruct (decide (k = k')) as [<-|Hne].
  - by right.
  - left. by apply lookup_insert_ne.
Qed.

Lemma grows_refl o st : grows o st st.
Proof. repeat split; apply grows_map_refl. Qed.

Lemma grows_trans o st1 st2 st3 :
  grows o st1 st2 → grows o st2 st3 → grows o st1 st3.
Proof.
  intros (?&?&?&?&?) (?&?&?&?&?).
  repeat split; eapply grows_map_trans; eauto.
Qed.

Lemma grows_map_persists {V} (o : option pyval) (m m' : gmap pykey V) k v :
  grows_map o m m' → m !! k = Some v → m' !! k = Some v.
Proof. intros Hg Hk. destruct (Hg k) as [E|[Hn _]]; congruence. Qed.

Lemma grows_map_isolated {V} (o : option pyval) (m m' : gmap pykey V) k :
  grows_map o m m' → key_self k ≠ o → m' !! k = m !! k.
Proof. intros Hg Hk. by destruct (Hg k) as [E|[_ ?]]. Qed.

(** Entries are never removed or overwritten. *)
Lemma grows_persists o st st' m k v :
  grows o st st' → entry m k st = Some v → entry m k st' = Some v.
Proof.
  intros (H1&H2&H3&H4&H5). destruct m; simpl;
    intros (x & Hx & ->)%fmap_Some;
    erewrite grows_map_persists by eauto; done.
Qed.

(** Keys of other objects are left alone. *)
Lemma grows_isolated o st st' m k :
  grows o st st' → key_self k ≠ o → entry m k st' = entry m k st.
Proof.
  intros (H1&H2&H3&H4&H5) Hk. destruct m; simpl;
    erewrite grows_map_isolated by eauto; done.
Qed.

(** ** Composition of computations that only add entries *)

Lemma preserves_ret {A} o (a : A) : preserves o (mret a : M caches A).
Proof. intros st r st' [= <- <-]. split; [apply grows_refl | done]. Qed.

Lemma preserves_lift {A} o (r : result A) : preserves o (lift r : M caches A).
Proof. intros st r' st' [= <- <-]. split; [apply grows_refl | done]. Qed.

Lemma preserves_bind {A B} o (m : M caches A) (k : A → M caches B) :
  preserves o m → (∀ a, preserves o (k a)) → preserves o (m ≫= k).
Proof.
  intros Hm Hk st r st'. unfold mbind, M_bind.
  destruct (m st) as [[a|e] st1] eqn:Hrun.
  - intros Hrun2. destruct (Hm _ _ _ Hrun) as [Hg1 Hp1].
    destruct (Hk a _ _ _ Hrun2) as [Hg2 Hp2].
    split; [eapply grows_trans; eauto | congruence].
  - intros [= <- <-]. eapply Hm; eauto.
Qed.

Lemma preserves_mapM {A B} o (f : A → M caches B) xs :
  (∀ x, preserves o (f x)) → preserves o (mapM f xs).
Proof.
  intros Hf. induction xs as [|x xs IH]; simpl.
  - apply preserves_ret.
  - apply preserves_bind; [apply Hf|]. intros y.
    apply preserves_bind; [apply IH|]. intros ys. apply preserves_ret.
Qed.

Section with_data.
Context (data_of : nat → Series).

Local Abbreviation moving_average := (moving_average data_of).
Local Abbreviation differential := (differential data_of).
Local Abbreviation autocorrelation := (autocorrelation data_of).
Local Abbreviation find_extremes := (find_extremes data_of).
Local Abbreviation process_data := (process_data data_of).
Local Abbreviation coherent := (coherent data_of).
Local Abbreviation computes := (computes data_of).

Ltac leaf_cases get set f args kwargs st :=
  destruct (wrapper_lift_cases get set f (λ _ _, eq_refl) args kwargs st)
    as [(v & Hk & Hrun)|[(Hk & v & Hf & Hrun)|(Hk & e & Hf & Hrun)]];
  cbv zeta in Hrun.

Lemma moving_average_preserves args kwargs :
  preserves (key_self (args, kwargs)) (moving_average args kwargs).
Proof.
  intros st r st' Hcall. unfold WeatherDataProcessor.moving_average in Hcall.
  leaf_cases moving_average_cache set_moving_average_cache
    (moving_average_func data_of) args kwargs st;
    rewrite Hrun in Hcall; injection Hcall as <- <-;
    (split; [|done]); try apply grows_refl.
  repeat split; try apply grows_map_refl. by apply grows_map_insert.
Qed.

Lemma differential_preserves args kwargs :
  preserves (key_self (args, kwargs)) (differential args kwargs).
Proof.
  intros st r st' Hcall. unfold WeatherDataProcessor.differential in Hcall.
  leaf_cases differential_cache set_differential_cache
    (differential_func data_of) args kwargs st;
    rewrite Hrun in Hcall; injection Hcall as <- <-;
    (split; [|done]); try apply grows_refl.
  repeat split; try apply grows_map_refl. by apply grows_map_insert.
Qed.

Lemma autocorrelation_preserves args kwargs :
  preserves (key_self (args, kwargs)) (autocorrelation args kwargs).
Proof.
  intros st r st' Hcall. unfold WeatherDataProcessor.autocorrelation in Hcall.
  leaf_cases autocorrelation_cache set_autocorrelation_cache
    (autocorrelation_func data_of) args kwargs st;
    rewrite Hrun in Hcall; injection Hcall as <- <-;
    (split; [|done]); try apply grows_refl.
  repeat split; try apply grows_map_refl. by apply grows_map_insert.
Qed.

Lemma find_extremes_preserves args kwargs :
  preserves (key_self (args, kwargs)) (find_extremes args kwargs).
Proof.
  intros st r st' Hcall. unfold WeatherDataProcessor.find_extremes in Hcall.
  leaf_cases find_extremes_cache set_find_extremes_cache
    (find_extremes_func data_of) args kwargs st;
    rewrite Hrun in Hcall; injection Hcall as <- <-;
    (split; [|done]); try apply grows_refl.
  repeat split; try apply grows_map_refl. by apply grows_map_insert.
Qed.

(** Binding [self] first means the key names the same object. *)
Lemma bind_args_self ps args kwargs v vs :
  bind_args ("self" :: ps) args kwargs = Ok (v :: vs) →
  key_self (args, kwargs) = Some v.
Proof.
  unfold key_self. simpl. destruct args as [|a args].
  - destruct (kw_get "self" kwargs) as [v'|]; [|done].
    destruct (bind_args ps [] _); [|done]. simpl. by intros [= -> _].
  - destruct (kw_get "self" kwargs); [done|].
    destruct (bind_args ps args kwargs); [|done]. simpl. by intros [= -> _].
Qed.

Lemma process_data_func_preserves args kwargs :
  preserves (key_self (args, kwargs))
    (process_data_func data_of args kwargs).
Proof.
  unfold process_data_func.
  destruct (bind_args ["self"] args kwargs) as [bound|e] eqn:Hb;
    [|apply preserves_lift].
  destruct bound as [|[self|z] [|??]]; try apply preserves_lift.
  rewrite (bind_args_self _ _ _ _ _ Hb).
  repeat first
    [ apply preserves_ret
    | apply preserves_lift
    | apply (moving_average_preserves [PObj self] [("window", PInt 7)])
    | apply (differential_preserves [PObj self] [])
    | apply (find_extremes_preserves [PObj self] [])
    | apply preserves_mapM; intros lag;
      apply (autocorrelation_preserves [PObj self; PInt (Z.of_nat lag)] [])
    | apply preserves_bind; [|intros ?] ].
Qed.

Lemma process_data_cache_get_set c st :
  process_data_cache (set_process_data_cache c st) = c.
Proof. reflexivity. Qed.

Lemma process_data_grows args kwargs st r st' :
  process_data args kwargs st = (r, st') →
  grows (key_self (args, kwargs)) st st'.
Proof.
  unfold WeatherDataProcessor.process_data. intros Hcall.
  destruct (process_data_cache st !! make_key args kwargs) as [v|] eqn:Hk.
  { rewrite (wrapper_hit _ _ _ _ _ _ v Hk) in Hcall.
    injection Hcall as <- <-. apply grows_refl. }
  destruct (process_data_func data_of args kwargs st) as [[v|e] st1] eqn:Hf;
    destruct (process_data_func_preserves _ _ _ _ _ Hf) as [Hg Hpd].
  - rewrite (wrapper_miss_ok _ _ _ process_data_cache_get_set
               _ _ _ _ _ Hk Hf) in Hcall.
    injection Hcall as <- <-.
    eapply grows_trans; [exact Hg|].
    repeat split; try apply grows_map_refl.
    apply grows_map_insert. by rewrite Hpd.
  - rewrite (wrapper_miss_raise _ _ _ _ _ _ _ _ Hk Hf) in Hcall.
    by injection Hcall as <- <-.
Qed.

(** Every call only adds entries, all under keys naming the object the
    call was made on. *)
Lemma call_grows m args kwargs st r st' :
  call data_of m args kwargs st = (r, st') →
  grows (key_self (args, kwargs)) st st'.
Proof.
  destruct m; simpl; unfold returning.
  - destruct (moving_average args kwargs st) as [r1 st1] eqn:Hrun.
    intros [= <- <-]. by eapply moving_average_preserves.
  - destruct (differential args kwargs st) as [r1 st1] eqn:Hrun.
    intros [= <- <-]. by eapply differential_preserves.
  - destruct (autocorrelation args kwargs st) as [r1 st1] eqn:Hrun.
    intros [= <- <-]. by eapply autocorrelation_preserves.
  - destruct (find_extremes args kwargs st) as [r1 st1] eqn:Hrun.
    intros [= <- <-]. by eapply find_extremes_preserves.
  - destruct (process_data args kwargs st) as [r1 st1] eqn:Hrun.
    intros [= <- <-]. by eapply process_data_grows.
Qed.

(** ** Composition of computations on coherent states *)

Lemma computes_ret {A} (a : A) : computes (mret a) (Ok a).
Proof. intros st Hc. by exists st. Qed.

Lemma computes_lift {A} (r : result A) : computes (lift r) r.
Proof. intros st Hc. by exists st. Qed.

Lemma computes_bind_ok {A B} (m : M caches A) (k : A → M caches B) a r :
  computes m (Ok a) → computes (k a) r → computes (m ≫= k) r.
Proof.
  intros Hm Hk st Hc. destruct (Hm st Hc) as (st1 & Hrun & Hc1).
  destruct (Hk st1 Hc1) as (st2 & Hrun2 & Hc2).
  exists st2. by rewrite (bind_ok _ _ _ _ _ Hrun).
Qed.

Lemma computes_bind_raise {A B} (m : M caches A) (k : A → M caches B) e :
  computes m (Raise e) → computes (m ≫= k) (Raise e).
Proof.
  intros Hm st Hc. destruct (Hm st Hc) as (st1 & Hrun & Hc1).
  exists st1. by rewrite (bind_raise _ _ _ _ _ Hrun).
Qed.

Lemma computes_mapM {A B} (f : A → M caches B) (g : A → B) xs :
  (∀ x, computes (f x) (Ok (g x))) → computes (mapM f xs) (Ok (g <$> xs)).
Proof.
  intros Hf. induction xs as [|x xs IH]; simpl.
  - apply computes_ret.
  - eapply computes_bind_ok; [apply Hf|].
    eapply computes_bind_ok; [apply IH|]. apply computes_ret.
Qed.

Lemma coherent_insert {V} (f : list pyval → list (string * pyval) → result V)
  (m : gmap pykey V) k v :
  (∀ k' v', m !! k' = Some v' → f k'.1 k'.2 = Ok v') →
  f k.1 k.2 = Ok v →
  ∀ k' v', <[k := v]> m !! k' = Some v' → f k'.1 k'.2 = Ok v'.
Proof.
  intros Hm Hf k' v'. destruct (decide (k = k')) as [<-|Hne].
  - rewrite lookup_insert_eq. by intros [= <-].
  - rewrite lookup_insert_ne by done. apply Hm.
Qed.

Lemma moving_average_computes args kwargs :
  computes (moving_average args kwargs)
           (moving_average_func data_of args kwargs).
Proof.
  intros st Hc. unfold WeatherDataProcessor.moving_average.
  leaf_cases moving_average_cache set_moving_average_cache
    (moving_average_func data_of) args kwargs st; rewrite Hrun.
  - exists st. split; [|done]. destruct Hc as (H1&_). pose proof (H1 _ _ Hk) as Hf.
    change (moving_average_func data_of args kwargs = Ok v) in Hf. by rewrite Hf.
  - eexists. rewrite Hf. split; [done|].
    destruct Hc as (H1&H2&H3&H4&H5). repeat split; try done.
    by apply coherent_insert.
  - exists st. by rewrite Hf.
Qed.

Lemma differential_computes args kwargs :
  computes (differential args kwargs)
           (differential_func data_of args kwargs).
Proof.
  intros st Hc. unfold WeatherDataProcessor.differential.
  leaf_cases differential_cache set_differential_cache
    (differential_func data_of) args kwargs st; rewrite Hrun.
  - exists st. split; [|done]. destruct Hc as (_&H2&_). pose proof (H2 _ _ Hk) as Hf.
    change (differential_func data_of args kwargs = Ok v) in Hf. by rewrite Hf.
  - eexists. rewrite Hf. split; [done|].
    destruct Hc as (H1&H2&H3&H4&H5). repeat split; try done.
    by apply coherent_insert.
  - exists st. by rewrite Hf.
Qed.

Lemma autocorrelation_computes args kwargs :
  computes (autocorrelation args kwargs)
           (autocorrelation_func data_of args kwargs).
Proof.
  intros st Hc. unfold WeatherDataProcessor.autocorrelation.
  leaf_cases autocorrelation_cache set_autocorrelation_cache
    (autocorrelation_func data_of) args kwargs st; rewrite Hrun.
  - exists st. split; [|done]. destruct Hc as (_&_&H3&_). pose proof (H3 _ _ Hk) as Hf.
    change (autocorrelation_func data_of args kwargs = Ok v) in Hf. by rewrite Hf.
  - eexists. rewrite Hf. split; [done|].
    destruct Hc as (H1&H2&H3&H4&H5). repeat split; try done.
    by apply coherent_insert.
  - exists st. by rewrite Hf.
Qed.

Lemma find_extremes_computes args kwargs :
  computes (find_extremes args kwargs)
           (find_extremes_func data_of args kwargs).
Proof.
  intros st Hc. unfold WeatherDataProcessor.find_extremes.
  leaf_cases find_extremes_cache set_find_extremes_cache
    (find_extremes_func data_of) args kwargs st; rewrite Hrun.
  - exists st. split; [|done]. destruct Hc as (_&_&_&H4&_). pose proof (H4 _ _ Hk) as Hf.
    change (find_extremes_func data_of args kwargs = Ok v) in Hf. by rewrite Hf.
  - eexists. rewrite Hf. split; [done|].
    destruct Hc as (H1&H2&H3&H4&H5). repeat split; try done.
    by apply coherent_insert.
  - exists st. by rewrite Hf.
Qed.

(** ** [process_data] *)

Lemma setitem_series_aligned df name (s : Series) :
  index s = df_index df →
  setitem_series df name s
  = Ok {| df_index := df_index df;
          df_columns := set_column name (Floats (values s)) (df_columns df) |}.
Proof.
  intros Hidx. unfold setitem_series.
  assert ((if decide (df_index df = [] ∧ s ≠ [])
           then index s else df_index df) = df_index df) as ->
    by (by case_decide).
  by rewrite reindex_same_index.
Qed.

Lemma setitem_series_subset df name (s : Series) :
  (df_index df = [] → s = []) →
  setitem_series df name s
  = result_map
      (λ vs, {| df_index := df_index df;
                df_columns := set_column name (Floats vs) (df_columns df) |})
      (reindex s (df_index df)).
Proof.
  intros Hnil. unfold setitem_series.
  rewrite decide_False by (intros [? ?]; auto).
  by destruct (reindex s (df_index df)).
Qed.

Lemma setitem_list_aligned df name xs :
  length xs = length (df_index df) →
  setitem_list df name xs
  = Ok {| df_index := df_index df;
          df_columns := set_column name (Coeffs xs) (df_columns df) |}.
Proof.
  intros Hl. unfold setitem_list.
  destruct (decide (df_index df = [] ∧ xs ≠ [])) as [[Hnil Hne]|_].
  { rewrite Hnil in Hl. by destruct xs. }
  by rewrite decide_True.
Qed.

Lemma select_nil mask : select [] mask = [].
Proof. reflexivity. Qed.

Lemma columns_in_order c1 c2 c3 c4 c5 c6 :
  set_column "minima" c6
    (set_column "maxima" c5
       (set_column "autocorrelation" c4
          (set_column "differential" c3
             (set_column "moving_average" c2
                (set_column "temperature" c1 [])))))
  = [("temperature", c1); ("moving_average", c2); ("differential", c3);
     ("autocorrelation", c4); ("maxima", c5); ("minima", c6)].
Proof. reflexivity. Qed.

Lemma process_data_func_computes args kwargs :
  computes (process_data_func data_of args kwargs)
           (process_data_pure data_of args kwargs).
Proof.
  unfold process_data_func, process_data_pure.
  destruct (bind_args ["self"] args kwargs) as [bound|e] eqn:Hb;
    [|apply computes_lift].
  destruct bound as [|[self|z] [|??]]; try apply computes_lift.
  unfold process_data_table.
  set (temperature := data_of self). set (t := values temperature).
  destruct (rolling_mean_Ok 7 t) as (ma & Hma & Hlen); [lia|]. rewrite Hma.
  assert (Hidx_nil : index temperature = [] → temperature = [])
    by (by destruct temperature).
  eapply computes_bind_ok.
  { rewrite setitem_series_aligned by done. apply computes_lift. }
  eapply computes_bind_ok.
  { pose proof (moving_average_computes [PObj self] [("window", PInt 7)]) as Hm.
    unfold moving_average_func in Hm. simpl bind_args in Hm. cbv iota in Hm.
    fold temperature t in Hm. rewrite Hma in Hm. exact Hm. }
  eapply computes_bind_ok.
  { rewrite setitem_series_aligned
      by (simpl; apply index_with_values; unfold t in Hlen;
          rewrite length_values in Hlen; done).
    apply computes_lift. }
  eapply computes_bind_ok.
  { apply (differential_computes [PObj self] []). }
  eapply computes_bind_ok.
  { rewrite setitem_series_aligned
      by (simpl; apply index_with_values;
          rewrite length_diff, length_values; done).
    apply computes_lift. }
  eapply computes_bind_ok.
  { unfold autocorrelation_generator.
    apply (computes_mapM _ (λ lag, autocorr (Z.of_nat lag) t)).
    intros lag. apply (autocorrelation_computes [PObj self; PInt _] []). }
  eapply computes_bind_ok.
  { rewrite setitem_list_aligned
      by (simpl; rewrite length_fmap, length_seq, length_index; done).
    apply computes_lift. }
  eapply computes_bind_ok.
  { apply (find_extremes_computes [PObj self] []). }
  fold temperature t. cbn [fst snd df_index df_columns].
  rewrite !values_with_values
    by (rewrite ?length_diff; unfold t in *; rewrite length_values in *; done).
  rewrite (setitem_series_subset _ "maxima")
    by (simpl; intros Hn; apply Hidx_nil in Hn; by rewrite Hn).
  unfold empty_frame. cbn [df_index df_columns].
  destruct (reindex (select temperature _) (index temperature)) as [mx|e];
    [|apply computes_bind_raise, computes_lift].
  eapply computes_bind_ok; [apply computes_lift|].
  rewrite (setitem_series_subset _ "minima")
    by (simpl; intros Hn; apply Hidx_nil in Hn; by rewrite Hn).
  unfold empty_frame. cbn [df_index df_columns].
  destruct (reindex (select temperature _) (index temperature)) as [mn|e];
    [|apply computes_bind_raise, computes_lift].
  eapply computes_bind_ok; [apply computes_lift|].
  rewrite columns_in_order.
  replace (length t) with (length temperature)
    by (symmetry; apply length_values).
  apply computes_ret.
Qed.

Lemma process_data_computes args kwargs :
  computes (process_data args kwargs) (process_data_pure data_of args kwargs).
Proof.
  intros st Hc. unfold WeatherDataProcessor.process_data.
  destruct (process_data_cache st !! make_key args kwargs) as [v|] eqn:Hk.
  { exists st. rewrite (wrapper_hit _ _ _ _ _ _ v Hk). split; [|done].
    destruct Hc as (_&_&_&_&H5). pose proof (H5 _ _ Hk) as Hf.
    change (process_data_pure data_of args kwargs = Ok v) in Hf.
    by rewrite Hf. }
  destruct (process_data_func_computes args kwargs st Hc) as (st1 & Hf & Hc1).
  destruct (process_data_func_preserves _ _ _ _ _ Hf) as [_ Hpd].
  destruct (process_data_pure data_of args kwargs) as [v|e] eqn:Hpure.
  - eexists.
    rewrite (wrapper_miss_ok _ _ _ process_data_cache_get_set
               _ _ _ _ _ Hk Hf). split; [done|].
    destruct Hc1 as (H1&H2&H3&H4&H5). repeat split; try done.
    simpl. by apply coherent_insert.
  - exists st1. by rewrite (wrapper_miss_raise _ _ _ _ _ _ _ _ Hk Hf).
Qed.

Lemma coherent_no_caches : coherent no_caches.
Proof.
  repeat split; intros k v Hk; simpl in Hk; by rewrite lookup_empty in Hk.
Qed.

(** Every reachable state is coherent. *)
Lemma reachable_coherent st : reachable data_of st → coherent st.
Proof.
  induction 1 as [|st m args kwargs r st' _ IH Hcall].
  - apply coherent_no_caches.
  - destruct m; simpl in Hcall; unfold returning in Hcall.
    + destruct (moving_average_computes args kwargs st IH) as (st1 & Hrun & ?).
      rewrite Hrun in Hcall. by injection Hcall as <- <-.
    + destruct (differential_computes args kwargs st IH) as (st1 & Hrun & ?).
      rewrite Hrun in Hcall. by injection Hcall as <- <-.
    + destruct (autocorrelation_computes args kwargs st IH) as (st1 & Hrun & ?).
      rewrite Hrun in Hcall. by injection Hcall as <- <-.
    + destruct (find_extremes_computes args kwargs st IH) as (st1 & Hrun & ?).
      rewrite Hrun in Hcall. by injection Hcall as <- <-.
    + destruct (process_data_computes args kwargs st IH) as (st1 & Hrun & ?).
      rewrite Hrun in Hcall. by injection Hcall as <- <-.
Qed.


(** ** The operations on reachable states *)

Lemma run_computes {A} (m : M caches A) r st :
  reachable data_of st → computes m r →
  ∃ st', m st = (r, st') ∧ coherent st'.
Proof. intros Hr Hm. apply Hm. by apply reachable_coherent. Qed.

Lemma is_local_max_spec t i :
  is_local_max t i = true ↔
  ∃ a b c, 1 ≤ i ∧ i + 1 < length t ∧
    t !! (i - 1) = Some (Num a) ∧ t !! i = Some (Num b) ∧
    t !! (i + 1) = Some (Num c) ∧ (a < b)%Q ∧ (c < b)%Q.
Proof.
  unfold is_local_max, neighbours. destruct i as [|j].
  { split; [done | intros (?&?&?&?&_); lia]. }
  replace (S j - 1) with j by lia. replace (S j + 1) with (S (S j)) by lia.
  split.
  - destruct (t !! j) as [a|]; [|done]. destruct (t !! S j) as [b|]; [|done].
    destruct (t !! S (S j)) as [c|] eqn:Hc; [|done].
    intros [Hab Hcb]%andb_true_iff.
    destruct a as [|a]; [done|]. destruct b as [|b]; [done|].
    destruct c as [|c]; [done|].
    exists a, b, c. apply lookup_lt_Some in Hc.
    repeat split; try done; try lia; by apply Qltb_lt.
  - intros (a & b & c & _ & _ & -> & -> & -> & Hab & Hcb).
    apply andb_true_iff. split; by apply Qltb_lt.
Qed.

Lemma is_local_min_spec t i :
  is_local_min t i = true ↔
  ∃ a b c, 1 ≤ i ∧ i + 1 < length t ∧
    t !! (i - 1) = Some (Num a) ∧ t !! i = Some (Num b) ∧
    t !! (i + 1) = Some (Num c) ∧ (b < a)%Q ∧ (b < c)%Q.
Proof.
  unfold is_local_min, neighbours. destruct i as [|j].
  { split; [done | intros (?&?&?&?&_); lia]. }
  replace (S j - 1) with j by lia. replace (S j + 1) with (S (S j)) by lia.
  split.
  - destruct (t !! j) as [a|]; [|done]. destruct (t !! S j) as [b|]; [|done].
    destruct (t !! S (S j)) as [c|] eqn:Hc; [|done].
    intros [Hab Hcb]%andb_true_iff.
    destruct a as [|a]; [by destruct b|]. destruct b as [|b]; [done|].
    destruct c as [|c]; [done|].
    exists a, b, c. apply lookup_lt_Some in Hc.
    repeat split; try done; try lia; by apply Qltb_lt.
  - intros (a & b & c & _ & _ & -> & -> & -> & Hab & Hcb).
    apply andb_true_iff. split; by apply Qltb_lt.
Qed.

Lemma find_extremes_func_rows self :
  find_extremes_func data_of [PObj self] []
  = Ok (rows_where (is_local_max (values (data_of self))) (data_of self),
        rows_where (is_local_min (values (data_of self))) (data_of self)).
Proof.
  unfold find_extremes_func. simpl bind_args. cbv iota.
  rewrite max_mask, min_mask, length_values.
  by rewrite !select_positions.
Qed.

(** C9. [find_extremes] returns the rows, with their timestamp and value,
    at exactly the local maxima and at exactly the local minima, and no
    other row.  A position is a local maximum (minimum) exactly when it
    has a neighbour on both sides, so is neither the first nor the last,
    and its value is strictly greater (less) than both; a NaN or an equal
    neighbour therefore never qualifies. *)
Theorem find_extremes_spec st self :
  reachable data_of st →
  let s := data_of self in
  let t := values s in
  (∃ st', find_extremes [PObj self] [] st
          = (Ok (rows_where (is_local_max t) s,
                 rows_where (is_local_min t) s), st')) ∧
  (∀ row, row ∈ rows_where (is_local_max t) s ↔
          ∃ i, s !! i = Some row ∧ is_local_max t i = true) ∧
  (∀ row, row ∈ rows_where (is_local_min t) s ↔
          ∃ i, s !! i = Some row ∧ is_local_min t i = true) ∧
  (∀ i, is_local_max t i = true ↔
        ∃ a b c, 1 ≤ i ∧ i + 1 < length t ∧
          t !! (i - 1) = Some (Num a) ∧ t !! i = Some (Num b) ∧
          t !! (i + 1) = Some (Num c) ∧ (a < b)%Q ∧ (c < b)%Q) ∧
  (∀ i, is_local_min t i = true ↔
        ∃ a b c, 1 ≤ i ∧ i + 1 < length t ∧
          t !! (i - 1) = Some (Num a) ∧ t !! i = Some (Num b) ∧
          t !! (i + 1) = Some (Num c) ∧ (b < a)%Q ∧ (b < c)%Q).
Proof.
  intros Hr s t. split; [|split; [|split; [|split]]].
  - destruct (run_computes _ _ _ Hr (find_extremes_computes [PObj self] []))
      as (st' & Hrun & _).
    exists st'. by rewrite Hrun, find_extremes_func_rows.
  - intros row. apply elem_of_rows_where.
  - intros row. apply elem_of_rows_where.
  - apply is_local_max_spec.
  - apply is_local_min_spec.
Qed.

(** A call that returned is answered from the dictionary from then on:
    the same call returns the same value and changes nothing. *)
Lemma call_again m args kwargs st v st' :
  call data_of m args kwargs st = (Ok v, st') →
  call data_of m args kwargs st' = (Ok v, st').
Proof.
  destruct m; simpl;
    unfold returning, WeatherDataProcessor.moving_average,
      WeatherDataProcessor.differential, WeatherDataProcessor.autocorrelation,
      WeatherDataProcessor.find_extremes, WeatherDataProcessor.process_data;
    intros Hcall.
  - destruct (wrapper _ _ _ args kwargs st) as [[x|e] st1] eqn:Hrun;
      [|done]. injection Hcall as <- <-.
    apply wrapper_ok_stored in Hrun; [|done].
    by rewrite (wrapper_hit _ _ _ _ _ _ x Hrun).
  - destruct (wrapper _ _ _ args kwargs st) as [[x|e] st1] eqn:Hrun;
      [|done]. injection Hcall as <- <-.
    apply wrapper_ok_stored in Hrun; [|done].
    by rewrite (wrapper_hit _ _ _ _ _ _ x Hrun).
  - destruct (wrapper _ _ _ args kwargs st) as [[x|e] st1] eqn:Hrun;
      [|done]. injection Hcall as <- <-.
    apply wrapper_ok_stored in Hrun; [|done].
    by rewrite (wrapper_hit _ _ _ _ _ _ x Hrun).
  - destruct (wrapper _ _ _ args kwargs st) as [[x|e] st1] eqn:Hrun;
      [|done]. injection Hcall as <- <-.
    apply wrapper_ok_stored in Hrun; [|done].
    by rewrite (wrapper_hit _ _ _ _ _ _ x Hrun).
  - destruct (wrapper _ _ _ args kwargs st) as [[x|e] st1] eqn:Hrun;
      [|done]. injection Hcall as <- <-.
    apply wrapper_ok_stored in Hrun; [|done].
    by rewrite (wrapper_hit _ _ _ _ _ _ x Hrun).
Qed.

(** C10 (as the code has it). Each operation has one dictionary, which
    all processor objects share; an entry is keyed by (positional
    arguments, keyword arguments), the object being the first argument.
    Whatever operation is called, on whatever object and arguments:
    every entry stored before the call is still stored, with the same
    value, after it (nothing is evicted, expired or overwritten); entries
    under keys that name another object are neither created nor changed,
    so a lookup made through one processor is never answered by an entry
    made through another; a returned value is stored under the key of
    the call, in the dictionary of the operation called, next to the
    entries made there through other objects. *)
Theorem cache_entries_persist m args kwargs st r st' :
  call data_of m args kwargs st = (r, st') →
  (∀ m' k v, entry m' k st = Some v → entry m' k st' = Some v) ∧
  (∀ m' k, key_self k ≠ key_self (args, kwargs) →
           entry m' k st' = entry m' k st) ∧
  (∀ v, r = Ok v → entry m (args, kwargs) st' = Some v) ∧
  (∀ v k v', r = Ok v → key_self k ≠ key_self (args, kwargs) →
             entry m k st = Some v' →
             entry m (args, kwargs) st' = Some v ∧ entry m k st' = Some v').
Proof.
  intros Hcall. pose proof (call_grows _ _ _ _ _ _ Hcall) as Hg.
  assert (Hstored : ∀ v, r = Ok v → entry m (args, kwargs) st' = Some v);
    [|split; [|split; [|split]]].
  2: { intros m' k v. by eapply grows_persists. }
  2: { intros m' k Hk. by eapply grows_isolated. }
  2: { exact Hstored. }
  2: { intros v k v' Hv _ Hk. split; [by apply Hstored|].
       by eapply grows_persists. }
  - intros v ->. destruct m; simpl in Hcall |- *; unfold returning in Hcall.
    + destruct (moving_average args kwargs st) as [[x|e] st1] eqn:Hrun;
        [|done]. injection Hcall as <- <-.
      apply wrapper_ok_stored in Hrun; [|done].
      unfold make_key in Hrun. by rewrite Hrun.
    + destruct (differential args kwargs st) as [[x|e] st1] eqn:Hrun;
        [|done]. injection Hcall as <- <-.
      apply wrapper_ok_stored in Hrun; [|done].
      unfold make_key in Hrun. by rewrite Hrun.
    + destruct (autocorrelation args kwargs st) as [[x|e] st1] eqn:Hrun;
        [|done]. injection Hcall as <- <-.
      apply wrapper_ok_stored in Hrun; [|done].
      unfold make_key in Hrun. by rewrite Hrun.
    + destruct (find_extremes args kwargs st) as [[x|e] st1] eqn:Hrun;
        [|done]. injection Hcall as <- <-.
      apply wrapper_ok_stored in Hrun; [|done].
      unfold make_key in Hrun. by rewrite Hrun.
    + destruct (process_data args kwargs st) as [[x|e] st1] eqn:Hrun;
        [|done]. injection Hcall as <- <-.
      apply wrapper_ok_stored in Hrun; [|done].
      unfold make_key in Hrun. by rewrite Hrun.
Qed.


Lemma moving_average_raises args kwargs st err :
  coherent st →
  moving_average_func data_of args kwargs = Raise err →
  moving_average args kwargs st = (Raise err, st).
Proof.
  intros Hc Hraise. unfold WeatherDataProcessor.moving_average.
  leaf_cases moving_average_cache set_moving_average_cache
    (moving_average_func data_of) args kwargs st.
  - destruct Hc as (H1&_). pose proof (H1 _ _ Hk) as Hf.
    change (moving_average_func data_of args kwargs = Ok v) in Hf. congruence.
  - congruence.
  - rewrite Hrun. congruence.
Qed.

Lemma window_mean_0 rows : window_mean 0 rows = NaN.
Proof.
  unfold window_mean. by rewrite Nat.sub_0_r, drop_all.
Qed.

Lemma rolling_mean_0 t : rolling_mean 0 t = Ok (replicate (length t) NaN).
Proof.
  unfold rolling_mean. simpl. f_equal. apply list_eq. intros i.
  rewrite list_lookup_fmap.
  destruct (decide (i < length t)) as [Hi|Hi].
  - rewrite lookup_seq_lt by done. simpl.
    by rewrite window_mean_0, lookup_replicate_2.
  - rewrite lookup_seq_ge by lia. simpl. symmetry.
    apply lookup_replicate_None. lia.
Qed.

Lemma valid_pairs_Num a b : valid_pairs (Num <$> a) (Num <$> b) = zip a b.
Proof.
  unfold valid_pairs. revert b.
  induction a as [|x a IH]; intros [|y b]; try done.
  csimpl. by rewrite IH.
Qed.


(** C2 (as the code has it). For [0 <= lag < len(S)], [autocorrelation(lag)]
    is the correlation coefficient, as numpy computes it in float64, of
    the two overlapping segments taken as samples of their own: the
    series from row [lag] on and the series without its last [lag] rows,
    the rows where either value is NaN left out (on a series without NaN
    the pairs are all the rows of the overlap).  Each segment is centred
    on its own mean and scaled by its own standard deviation, not those
    of the full series: in exact arithmetic the computation gives
    Pearson's coefficient of the two segments whenever both have a
    non-zero variance. *)
Theorem autocorrelation_overlap_pearson st self lag :
  reachable data_of st →
  let t := values (data_of self) in
  (0 <= lag < Z.of_nat (length t))%Z →
  let k := Z.to_nat lag in
  let ps := valid_pairs (drop k t) (take (length t - k) t) in
  let xs := Q2R <$> ps.*1 in
  let ys := Q2R <$> ps.*2 in
  (∃ st', autocorrelation [PObj self; PInt lag] [] st
          = (Ok (corr (drop k t) (take (length t - k) t)), st')) ∧
  (2 ≤ length ps →
   corr (drop k t) (take (length t - k) t)
   = clipped (corrcoef float64 (float_of_Q <$> ps.*1)
                               (float_of_Q <$> ps.*2))) ∧
  (∀ qs, t = Num <$> qs → ps = zip (drop k qs) (take (length qs - k) qs)) ∧
  (sum_products xs xs ≠ 0%R → sum_products ys ys ≠ 0%R →
   Some (clip (-1) 1 (corrcoef exact xs ys)) = pearson xs ys).
Proof.
  intros Hr t Hlag k ps xs ys. split; [|split; [|split]].
  - destruct (run_computes _ _ _ Hr
                (autocorrelation_computes [PObj self; PInt lag] []))
      as (st' & Hrun & _).
    exists st'. rewrite Hrun. unfold autocorrelation_func. simpl.
    fold t. rewrite <- (Z2Nat.id lag) by lia. fold k.
    by rewrite autocorr_overlap.
  - apply corr_pairs.
  - intros qs Ht. subst ps. rewrite Ht, length_fmap.
    by rewrite <- fmap_drop, <- fmap_take, valid_pairs_Num.
  - apply corrcoef_exact_pearson. subst xs ys. by rewrite !length_fmap.
Qed.

(** C3 (as the code has it). A negative window makes [moving_average]
    fail with the [ValueError] pandas raises, which reaches the caller
    and leaves the caches as they were; a window of 0 is accepted and
    gives an all-NaN series.  [autocorrelation] never fails on an
    integer lag: for a lag not less than the length it returns NaN, for
    a negative lag it returns the correlation with the series shifted
    the other way. *)
Theorem invalid_arguments_behaviour st self :
  reachable data_of st →
  let s := data_of self in
  (∀ window, (window < 0)%Z →
     moving_average [PObj self; PInt window] [] st = (Raise ValueError, st)) ∧
  (∃ st', moving_average [PObj self; PInt 0] [] st
          = (Ok (with_values s (replicate (length s) NaN)), st')) ∧
  (∀ lag, (Z.of_nat (length s) <= lag)%Z →
     ∃ st', autocorrelation [PObj self; PInt lag] [] st = (Ok None, st')) ∧
  (∀ lag, (lag < 0)%Z →
     ∃ st', autocorrelation [PObj self; PInt lag] [] st
            = (Ok (corr (values s) (shift lag (values s))), st')).
Proof.
  intros Hr s. pose proof (reachable_coherent _ Hr) as Hc.
  split; [|split; [|split]].
  - intros window Hw. apply moving_average_raises; [done|].
    unfold moving_average_func, rolling_mean. simpl.
    by rewrite (proj2 (Z.ltb_lt window 0)).
  - destruct (run_computes _ _ _ Hr
                (moving_average_computes [PObj self; PInt 0] []))
      as (st' & Hrun & _).
    exists st'. rewrite Hrun. unfold moving_average_func. simpl bind_args.
    cbv iota. fold s. by rewrite rolling_mean_0, length_values.
  - intros lag Hlag.
    destruct (run_computes _ _ _ Hr
                (autocorrelation_computes [PObj self; PInt lag] []))
      as (st' & Hrun & _).
    exists st'. rewrite Hrun. unfold autocorrelation_func. simpl.
    rewrite autocorr_lag_ge; [done|]. by rewrite length_values.
  - intros lag Hlag.
    destruct (run_computes _ _ _ Hr
                (autocorrelation_computes [PObj self; PInt lag] []))
      as (st' & Hrun & _).
    exists st'. by rewrite Hrun.
Qed.

Lemma autocorr_short lag t : length t ≤ 1 → autocorr lag t = None.
Proof.
  intros Hl. unfold autocorr. apply corr_one_pair.
  etrans; [apply valid_pairs_length_le | done].
Qed.

Lemma process_data_table_short self :
  length (data_of self) ≤ 1 →
  let s := data_of self in
  let missing := replicate (length s) NaN in
  process_data_table data_of self
  = Ok {| df_index := index s;
          df_columns :=
            [("temperature", Floats (values s));
             ("moving_average", Floats missing);
             ("differential", Floats missing);
             ("autocorrelation", Coeffs (replicate (length s) None));
             ("maxima", Floats missing);
             ("minima", Floats missing)] |}.
Proof.
  intros Hl s missing. subst s missing. unfold process_data_table.
  destruct (data_of self) as [|[l c] [|??]]; simpl in Hl; try lia.
  - reflexivity.
  - cbn [values fmap list_fmap snd length seq].
    rewrite (autocorr_short _ [c]) by (simpl; lia).
    destruct c; reflexivity.
Qed.

(** C4 (as the code has it). On an empty or single-row series no
    operation fails: [differential] returns an all-NaN series on the
    same index, [find_extremes] two empty series, [autocorrelation] NaN
    at every lag, and [process_data] the table on the same index whose
    derived columns are all NaN. *)
Theorem short_series_results st self :
  reachable data_of st →
  let s := data_of self in
  length s ≤ 1 →
  let missing := replicate (length s) NaN in
  (∃ st', differential [PObj self] [] st
          = (Ok (with_values s missing), st')) ∧
  (∃ st', find_extremes [PObj self] [] st = (Ok ([], []), st')) ∧
  (∀ lag, ∃ st', autocorrelation [PObj self; PInt lag] [] st
                 = (Ok None, st')) ∧
  (∃ st', process_data [PObj self] [] st
          = (Ok {| df_index := index s;
                   df_columns :=
                     [("temperature", Floats (values s));
                      ("moving_average", Floats missing);
                      ("differential", Floats missing);
                      ("autocorrelation", Coeffs (replicate (length s) None));
                      ("maxima", Floats missing);
                      ("minima", Floats missing)] |}, st')).
Proof.
  intros Hr s Hl missing. split; [|split; [|split]].
  - destruct (run_computes _ _ _ Hr (differential_computes [PObj self] []))
      as (st' & Hrun & _).
    exists st'. rewrite Hrun. unfold differential_func. simpl bind_args.
    cbv iota. fold s. do 2 f_equal. subst missing.
    destruct s as [|[l c] [|??]]; simpl in Hl; try lia; [done|].
    by destruct c.
  - destruct (run_computes _ _ _ Hr (find_extremes_computes [PObj self] []))
      as (st' & Hrun & _).
    exists st'. rewrite Hrun. unfold find_extremes_func. simpl bind_args.
    cbv iota. fold s. do 2 f_equal.
    destruct s as [|[l c] [|??]]; simpl in Hl; try lia; [done|].
    by destruct c.
  - intros lag.
    destruct (run_computes _ _ _ Hr
                (autocorrelation_computes [PObj self; PInt lag] []))
      as (st' & Hrun & _).
    exists st'. rewrite Hrun. unfold autocorrelation_func. simpl.
    rewrite autocorr_short; [done|]. by rewrite length_values.
  - destruct (run_computes _ _ _ Hr (process_data_computes [PObj self] []))
      as (st' & Hrun & _).
    exists st'. rewrite Hrun. unfold process_data_pure. simpl bind_args.
    cbv iota. by rewrite process_data_table_short.
Qed.

Lemma process_data_table_NoDup self :
  NoDup (index (data_of self)) →
  let s := data_of self in
  let t := values s in
  ∃ ma, rolling_mean 7 t = Ok ma ∧ length ma = length t ∧
  process_data_table data_of self
  = Ok {| df_index := index s;
          df_columns :=
            [("temperature", Floats t);
             ("moving_average", Floats ma);
             ("differential", Floats (diff t));
             ("autocorrelation",
              Coeffs ((λ lag, autocorr (Z.of_nat lag) t) <$> seq 0 (length t)));
             ("maxima", Floats (sparse_column (is_local_max t) t));
             ("minima", Floats (sparse_column (is_local_min t) t))] |}.
Proof.
  intros Hnd s t. destruct (rolling_mean_Ok 7 t) as (ma & Hma & Hlen); [lia|].
  exists ma. split; [done|]. split; [done|].
  unfold process_data_table. fold s t. rewrite Hma.
  cbn [fst snd]. rewrite max_mask, min_mask.
  replace (length t) with (length s) by (symmetry; apply length_values).
  rewrite !select_positions.
  by rewrite !reindex_rows_where.
Qed.

(** C1. For a table with distinct timestamps, [process_data] returns a
    table on the same index with exactly the columns temperature,
    moving_average, differential, autocorrelation, maxima and minima, in
    this order, each with one cell per input row: temperature is the
    input column; moving_average and differential are what
    [moving_average(window=7)] and [differential()] return; the
    autocorrelation cell of row [i] is what [autocorrelation(i)] returns
    (called with the lag by position or by keyword); maxima and minima
    are what [find_extremes()] returns, looked up by timestamp, which
    puts each extremum in its own row and NaN in every other row. *)
Theorem process_data_spec st self :
  reachable data_of st →
  NoDup (index (data_of self)) →
  let s := data_of self in
  let t := values s in
  let n := length s in
  ∃ tbl st',
    process_data [PObj self] [] st = (Ok tbl, st') ∧
    df_index tbl = index s ∧
    (df_columns tbl).*1
    = ["temperature"; "moving_average"; "differential"; "autocorrelation";
       "maxima"; "minima"] ∧
    Forall (λ c, column_length c.2 = n) (df_columns tbl) ∧
    get_column "temperature" (df_columns tbl) = Some (Floats t) ∧
    (∃ ma st2,
       moving_average [PObj self] [("window", PInt 7)] st' = (Ok ma, st2) ∧
       index ma = index s ∧
       get_column "moving_average" (df_columns tbl)
       = Some (Floats (values ma))) ∧
    (∃ d st2,
       differential [PObj self] [] st' = (Ok d, st2) ∧
       index d = index s ∧
       get_column "differential" (df_columns tbl)
       = Some (Floats (values d))) ∧
    (∃ ac,
       get_column "autocorrelation" (df_columns tbl) = Some (Coeffs ac) ∧
       length ac = n ∧
       ∀ i, i < n →
         ∃ x st2 st3,
           autocorrelation [PObj self; PInt (Z.of_nat i)] [] st'
           = (Ok x, st2) ∧
           autocorrelation [PObj self] [("lag", PInt (Z.of_nat i))] st'
           = (Ok x, st3) ∧
           ac !! i = Some x) ∧
    (∃ maxima minima st2 mx mn,
       find_extremes [PObj self] [] st' = (Ok (maxima, minima), st2) ∧
       get_column "maxima" (df_columns tbl) = Some (Floats mx) ∧
       get_column "minima" (df_columns tbl) = Some (Floats mn) ∧
       mx = (λ l, default NaN (series_get l maxima)) <$> index s ∧
       mn = (λ l, default NaN (series_get l minima)) <$> index s ∧
       mx = sparse_column (is_local_max t) t ∧
       mn = sparse_column (is_local_min t) t).
Proof.
  intros Hr Hnd s t n.
  destruct (run_computes _ _ _ Hr (process_data_computes [PObj self] []))
    as (st' & Hrun & Hc').
  destruct (process_data_table_NoDup self Hnd) as (ma & Hma & Hlen & Htbl).
  fold s t in Hma, Hlen, Htbl.
  assert (Hnt : length t = n) by apply length_values.
  unfold process_data_pure in Hrun. simpl bind_args in Hrun.
  cbv iota in Hrun. rewrite Htbl in Hrun.
  eexists _, st'. split; [exact Hrun|]. cbn [df_index df_columns].
  split; [done|]. split; [done|]. split.
  { repeat constructor; simpl; unfold n, t in *;
      rewrite ?Hlen, ?length_diff, ?length_fmap, ?length_seq,
        ?length_sparse_column, ?length_values; done. }
  split; [done|]. split; [|split; [|split]].
  - destruct (moving_average_computes [PObj self] [("window", PInt 7)] st' Hc')
      as (st2 & Hrun2 & _).
    unfold moving_average_func in Hrun2. simpl bind_args in Hrun2.
    cbv iota in Hrun2. fold s t in Hrun2. rewrite Hma in Hrun2.
    eexists _, st2. split; [exact Hrun2|].
    rewrite index_with_values, values_with_values
      by (rewrite Hlen; apply length_values). done.
  - destruct (differential_computes [PObj self] [] st' Hc')
      as (st2 & Hrun2 & _).
    eexists _, st2. split; [exact Hrun2|]. fold s t.
    rewrite index_with_values, values_with_values
      by (rewrite length_diff; apply length_values). done.
  - eexists. split; [done|]. split.
    { rewrite length_fmap, length_seq. apply length_values. }
    intros i Hi.
    destruct (autocorrelation_computes
                [PObj self; PInt (Z.of_nat i)] [] st' Hc')
      as (st2 & Hrun2 & _).
    destruct (autocorrelation_computes
                [PObj self] [("lag", PInt (Z.of_nat i))] st' Hc')
      as (st3 & Hrun3 & _).
    eexists _, st2, st3. split; [exact Hrun2|]. split; [exact Hrun3|].
    rewrite list_lookup_fmap, lookup_seq_lt
      by (unfold t; rewrite length_values; exact Hi). done.
  - destruct (find_extremes_computes [PObj self] [] st' Hc')
      as (st2 & Hrun2 & _).
    rewrite find_extremes_func_rows in Hrun2. fold s t in Hrun2.
    eexists _, _, st2, _, _. split; [exact Hrun2|].
    split; [done|]. split; [done|].
    pose proof (reindex_rows_where (is_local_max t) s Hnd) as Hmx.
    pose proof (reindex_rows_where (is_local_min t) s Hnd) as Hmn.
    rewrite reindex_NoDup in Hmx, Hmn by by apply rows_where_NoDup.
    injection Hmx as Hmx. injection Hmn as Hmn. fold t in Hmx, Hmn.
    by rewrite Hmx, Hmn.
Qed.

End with_data.
End ProcessorFacts.

(** * The properties at concrete tables *)

Module Checks.
Import Cache Pandas WeatherDataProcessor Samples.
Import CacheFacts PandasFacts ProcessorFacts.

(** The assertions of tests/test_data_processing.py. *)
Example test_moving_average :
  ∃ ma, moving_average_func (every test_series) [PObj 0; PInt 3] [] = Ok ma ∧
        length (present (values ma)) = 8 ∧
        head (present (values ma)) = Some 1%Q.
Proof. eexists. split; [reflexivity|]. split; reflexivity. Qed.

Example test_differential :
  ∃ d, differential_func (every test_series) [PObj 0] [] = Ok d ∧
       length (present (values d)) = 9 ∧
       values d !! 1 = Some (Num 1).
Proof. eexists. split; [reflexivity|]. split; reflexivity. Qed.

Example test_find_extremes :
  find_extremes_func (every test_series) [PObj 0] []
  = Ok ([(2%Z, Num 2); (5%Z, Num 4)], [(3%Z, Num 1); (6%Z, Num 2)]).
Proof. reflexivity. Qed.

Lemma reachable_no_caches data_of : reachable data_of no_caches.
Proof. constructor. Qed.

Lemma Q2R_inject_Z z : Q2R (inject_Z z) = IZR z.
Proof. unfold Q2R. simpl. field. Qed.

(** The doubles next to 1. *)
Lemma pow2_53 : (powerRZ 2 (-53) = / 9007199254740992)%R.
Proof.
  change (powerRZ 2 (-53)) with (/ 2 ^ 53)%R. f_equal.
  change 2%R with (IZR 2). by rewrite pow_IZR.
Qed.

Lemma pow2_52 : (powerRZ 2 (-52) = / 4503599627370496)%R.
Proof.
  change (powerRZ 2 (-52)) with (/ 2 ^ 52)%R. f_equal.
  change 2%R with (IZR 2). by rewrite pow_IZR.
Qed.

Lemma clip_below_one :
  clip (-1) 1 (finite_value false 9007199254740991 (-53)) = below_one.
Proof.
  unfold finite_value, below_one. rewrite pow2_53.
  unfold clip, Rmax, Rmin. repeat destruct (Rle_dec _ _); lra.
Qed.


Lemma below_one_bounds : (0 < below_one < 1)%R.
Proof. unfold below_one. lra. Qed.

(** The coefficient of [0, 1, 3] at lag 1: the segments [1, 3] and
    [0, 1] are perfectly correlated, and the two divisions by the
    rounded standard deviations leave the double just below 1. *)
Lemma autocorr_rising_1 : autocorr 1 (values rising_series) = Some below_one.
Proof.
  unfold autocorr. rewrite <- clip_below_one. apply corr_value.
  - vm_compute. lia.
  - vm_compute. reflexivity.
Qed.



Lemma clip_one :
  clip (-1) 1 (finite_value false 4503599627370496 (-52)) = 1%R.
Proof.
  unfold finite_value. rewrite pow2_52.
  unfold clip, Rmax, Rmin. repeat destruct (Rle_dec _ _); lra.
Qed.

(** The last lags of the table of the tests: three pairs, two pairs, one
    pair. *)
Example test_series_last_lags :
  autocorr 7 (values test_series) = Some 1%R ∧
  autocorr 8 (values test_series) = Some below_one ∧
  autocorr 9 (values test_series) = None.
Proof.
  split; [|split].
  - unfold autocorr. rewrite <- clip_one. apply corr_value.
    + vm_compute. lia.
    + vm_compute. reflexivity.
  - unfold autocorr. rewrite <- clip_below_one. apply corr_value.
    + vm_compute. lia.
    + vm_compute. reflexivity.
  - reflexivity.
Qed.

(** On a single observation the float64 steps give NaN, as
    [corrcoef_0_1] has it. *)
Example corrcoef_single_observation :
  clipped (corrcoef float64 [float_of_Q 5] [float_of_Q 5]) = None ∧
  clipped (corrcoef float64 [float_of_Q (1 # 10)] [float_of_Q (-7 # 3)])
  = None.
Proof. split; vm_compute; reflexivity. Qed.

Lemma full_series_rising_1 :
  full_series_autocorrelation 1 [0; 1; 3]%R = (-1 / 42)%R.
Proof. unfold full_series_autocorrelation, Rmean, Rsum. simpl. field. Qed.

Lemma run_no_caches {A} data_of (m : M caches A) r :
  computes data_of m r → (m no_caches).1 = r.
Proof.
  intros Hm. destruct (Hm no_caches (coherent_no_caches data_of))
    as (st' & Hrun & _). by rewrite Hrun.
Qed.

(** C2, counterexample: on [0, 1, 3] at lag 1 the method returns
    1 - 2^-53, the coefficient 1 of the segments [1, 3] and [0, 1] up to
    rounding, while centring on the mean of the full series and dividing
    by its sum of squares gives -1/42; no positive rescaling of the
    latter (another normalisation of covariance and variance) gives the
    value returned. *)
Lemma autocorrelation_not_full_series_mean :
  (autocorrelation (every rising_series) [PObj 0; PInt 1] [] no_caches).1
  = Ok (Some below_one) ∧
  full_series_autocorrelation 1 (Q2R <$> present (values rising_series))
  = (-1 / 42)%R ∧
  ∀ c, (0 < c)%R →
    (autocorrelation (every rising_series) [PObj 0; PInt 1] [] no_caches).1
    ≠ Ok (Some (c * full_series_autocorrelation 1
                      (Q2R <$> present (values rising_series)))%R).
Proof.
  assert (Hrun :
    (autocorrelation (every rising_series) [PObj 0; PInt 1] [] no_caches).1
    = Ok (Some below_one)).
  { rewrite (run_no_caches _ _ _
               (autocorrelation_computes _ [PObj 0; PInt 1] [])).
    unfold autocorrelation_func. simpl bind_args. cbv iota.
    unfold every. by rewrite autocorr_rising_1. }
  assert (Hfull :
    full_series_autocorrelation 1 (Q2R <$> present (values rising_series))
    = (-1 / 42)%R).
  { change (full_series_autocorrelation 1
              [Q2R (inject_Z 0); Q2R (inject_Z 1); Q2R (inject_Z 3)]
            = (-1 / 42)%R).
    rewrite !Q2R_inject_Z. apply full_series_rising_1. }
  split; [done|]. split; [done|].
  intros c Hc. rewrite Hrun, Hfull. intros [= Heq].
  pose proof below_one_bounds. lra.
Qed.

(** C3, counterexample: a lag equal to the length, a negative lag and a
    zero window all return a value. *)
Lemma out_of_range_arguments_return :
  (autocorrelation (every rising_series) [PObj 0; PInt 3] [] no_caches).1
  = Ok None ∧
  (∃ x, (autocorrelation (every rising_series) [PObj 0; PInt (-1)] []
           no_caches).1 = Ok x) ∧
  (moving_average (every rising_series) [PObj 0; PInt 0] [] no_caches).1
  = Ok [(0%Z, NaN); (1%Z, NaN); (2%Z, NaN)].
Proof.
  split; [|split].
  - rewrite (run_no_caches _ _ _
               (autocorrelation_computes _ [PObj 0; PInt 3] [])).
    unfold autocorrelation_func. simpl bind_args. cbv iota.
    by rewrite autocorr_lag_ge.
  - eexists.
    by rewrite (run_no_caches _ _ _
                  (autocorrelation_computes _ [PObj 0; PInt (-1)] [])).
  - by rewrite (run_no_caches _ _ _
                  (moving_average_computes _ [PObj 0; PInt 0] [])).
Qed.

(** C4, counterexample: on a single-row table, and on an empty one, the
    operations return results. *)
Lemma short_series_return :
  (differential (every single_row) [PObj 0] [] no_caches).1
  = Ok [(0%Z, NaN)] ∧
  (find_extremes (every single_row) [PObj 0] [] no_caches).1
  = Ok ([], []) ∧
  (autocorrelation (every single_row) [PObj 0; PInt 0] [] no_caches).1
  = Ok None ∧
  (process_data (every single_row) [PObj 0] [] no_caches).1
  = Ok {| df_index := [0%Z];
          df_columns :=
            [("temperature", Floats [Num 5]);
             ("moving_average", Floats [NaN]);
             ("differential", Floats [NaN]);
             ("autocorrelation", Coeffs [None]);
             ("maxima", Floats [NaN]);
             ("minima", Floats [NaN])] |} ∧
  (differential (every []) [PObj 0] [] no_caches).1 = Ok [] ∧
  (process_data (every []) [PObj 0] [] no_caches).1
  = Ok {| df_index := [];
          df_columns :=
            [("temperature", Floats []);
             ("moving_average", Floats []);
             ("differential", Floats []);
             ("autocorrelation", Coeffs []);
             ("maxima", Floats []);
             ("minima", Floats [])] |}.
Proof. (* each equation holds by evaluation *)
  repeat split; reflexivity.
Qed.

Lemma values_two_values x :
  Num x ∈ values two_values → x = inject_Z 1 ∨ x = inject_Z 2.
Proof.
  intros Hx. simpl in Hx.
  apply elem_of_cons in Hx as [Hx|Hx]; [left; by injection Hx|].
  apply elem_of_cons in Hx as [Hx|Hx]; [right; by injection Hx|].
  by apply elem_of_nil in Hx.
Qed.



Lemma NoDup_index_test_series : NoDup (index test_series).
Proof. apply (bool_decide_unpack _). by vm_compute. Qed.

Lemma process_data_spec_witness :
  reachable (every test_series) no_caches ∧
  NoDup (index (every test_series 0)) ∧
  ∃ tbl st',
    process_data (every test_series) [PObj 0] [] no_caches = (Ok tbl, st') ∧
    df_index tbl = index test_series ∧
    (df_columns tbl).*1
    = ["temperature"; "moving_average"; "differential"; "autocorrelation";
       "maxima"; "minima"] ∧
    Forall (λ c, column_length c.2 = 10) (df_columns tbl).
Proof.
  split; [apply reachable_no_caches|].
  split; [apply NoDup_index_test_series|].
  destruct (process_data_spec (every test_series) no_caches 0
              (reachable_no_caches _) NoDup_index_test_series)
    as (tbl & st' & Hrun & Hidx & Hcols & Hlen & _).
  exists tbl, st'. done.
Defined.

Lemma sum_products_rising_1 :
  sum_products (Q2R <$> [inject_Z 1; inject_Z 3])
               (Q2R <$> [inject_Z 1; inject_Z 3]) = 2%R ∧
  sum_products (Q2R <$> [inject_Z 0; inject_Z 1])
               (Q2R <$> [inject_Z 0; inject_Z 1]) = (1 / 2)%R ∧
  sum_products (Q2R <$> [inject_Z 1; inject_Z 3])
               (Q2R <$> [inject_Z 0; inject_Z 1]) = 1%R.
Proof.
  cbn [fmap list_fmap]. rewrite !Q2R_inject_Z.
  repeat split; unfold sum_products, Rmean, Rsum; simpl; field.
Qed.

Lemma autocorrelation_overlap_pearson_witness :
  reachable (every rising_series) no_caches ∧
  (0 <= 1 < Z.of_nat (length (values rising_series)))%Z ∧
  (∃ st', autocorrelation (every rising_series) [PObj 0; PInt 1] [] no_caches
          = (Ok (corr [Num (inject_Z 1); Num (inject_Z 3)]
                      [Num (inject_Z 0); Num (inject_Z 1)]), st')) ∧
  sum_products (Q2R <$> [inject_Z 1; inject_Z 3])
               (Q2R <$> [inject_Z 1; inject_Z 3]) ≠ 0%R ∧
  sum_products (Q2R <$> [inject_Z 0; inject_Z 1])
               (Q2R <$> [inject_Z 0; inject_Z 1]) ≠ 0%R ∧
  Some (clip (-1) 1 (corrcoef exact (Q2R <$> [inject_Z 1; inject_Z 3])
                                    (Q2R <$> [inject_Z 0; inject_Z 1])))
  = pearson (Q2R <$> [inject_Z 1; inject_Z 3])
            (Q2R <$> [inject_Z 0; inject_Z 1]).
Proof.
  destruct sum_products_rising_1 as (Hxx & Hyy & _).
  assert (Hx : sum_products (Q2R <$> [inject_Z 1; inject_Z 3])
                 (Q2R <$> [inject_Z 1; inject_Z 3]) ≠ 0%R)
    by (rewrite Hxx; lra).
  assert (Hy : sum_products (Q2R <$> [inject_Z 0; inject_Z 1])
                 (Q2R <$> [inject_Z 0; inject_Z 1]) ≠ 0%R)
    by (rewrite Hyy; lra).
  split; [apply reachable_no_caches|]. split; [simpl; lia|].
  destruct (autocorrelation_overlap_pearson (every rising_series) no_caches
              0 1 (reachable_no_caches _)) as (Hrun & _ & _ & Hexact);
    [simpl; lia|].
  split; [exact Hrun|]. split; [exact Hx|]. split; [exact Hy|].
  exact (Hexact Hx Hy).
Defined.

Lemma invalid_arguments_behaviour_witness :
  reachable (every rising_series) no_caches ∧
  moving_average (every rising_series) [PObj 0; PInt (-1)] [] no_caches
  = (Raise ValueError, no_caches) ∧
  ∃ st', autocorrelation (every rising_series) [PObj 0; PInt 3] [] no_caches
         = (Ok None, st').
Proof.
  split; [apply reachable_no_caches|].
  destruct (invalid_arguments_behaviour (every rising_series) no_caches 0
              (reachable_no_caches _)) as (Hneg & _ & Hge & _).
  split; [apply Hneg; lia | apply Hge; simpl; lia].
Defined.

Lemma short_series_results_witness :
  reachable (every single_row) no_caches ∧
  length (every single_row 0) ≤ 1 ∧
  (∃ st', differential (every single_row) [PObj 0] [] no_caches
          = (Ok [(0%Z, NaN)], st')) ∧
  (∃ st', find_extremes (every single_row) [PObj 0] [] no_caches
          = (Ok ([], []), st')).
Proof.
  split; [apply reachable_no_caches|]. split; [simpl; lia|].
  destruct (short_series_results (every single_row) no_caches 0
              (reachable_no_caches _)) as (Hd & Hf & _); [simpl; lia|].
  split; [exact Hd | exact Hf].
Defined.


Lemma find_extremes_spec_witness :
  reachable (every test_series) no_caches ∧
  ∃ st', find_extremes (every test_series) [PObj 0] [] no_caches
         = (Ok ([(2%Z, Num 2); (5%Z, Num 4)], [(3%Z, Num 1); (6%Z, Num 2)]),
            st').
Proof.
  split; [apply reachable_no_caches|].
  apply (proj1 (find_extremes_spec (every test_series) no_caches 0
                  (reachable_no_caches _))).
Defined.

(** Processor 1 has looked for its extremes; processor 0 has not. *)
Lemma find_extremes_1_stored :
  let st := (call two_tables FindExtremes [PObj 1] [] no_caches).2 in
  entry FindExtremes ([PObj 1], []) st = Some (VPair ([], [])) ∧
  entry FindExtremes ([PObj 0], []) st = None.
Proof. split; reflexivity. Qed.

(** C10, counterexample: the store is not owned by a processor: after
    [find_extremes] on processor 0 and on processor 1, the one dictionary
    of [find_extremes] holds the entries of both, and only they. *)
Lemma store_shared_by_processors :
  let st1 := (find_extremes two_tables [PObj 0] [] no_caches).2 in
  let st2 := (find_extremes two_tables [PObj 1] [] st1).2 in
  find_extremes_cache st2 !! ([PObj 0], [])
  = Some ([(2%Z, Num 2); (5%Z, Num 4)], [(3%Z, Num 1); (6%Z, Num 2)]) ∧
  find_extremes_cache st2 !! ([PObj 1], []) = Some ([], []) ∧
  size (find_extremes_cache st2) = 2.
Proof. repeat split; vm_compute; reflexivity. Qed.

Lemma cache_entries_persist_witness :
  let st := (call two_tables FindExtremes [PObj 1] [] no_caches).2 in
  let run := call two_tables FindExtremes [PObj 0] [] st in
  call two_tables FindExtremes [PObj 0] [] st = (run.1, run.2) ∧
  entry FindExtremes ([PObj 1], []) st = Some (VPair ([], [])) ∧
  entry FindExtremes ([PObj 1], []) run.2 = Some (VPair ([], [])) ∧
  entry MovingAverage ([PObj 1; PInt 3], []) run.2
  = entry MovingAverage ([PObj 1; PInt 3], []) st ∧
  (∀ v, run.1 = Ok v →
        entry FindExtremes ([PObj 0], []) run.2 = Some v ∧
        entry FindExtremes ([PObj 1], []) run.2 = Some (VPair ([], []))).
Proof.
  intros st run. split; [apply surjective_pairing|].
  destruct (cache_entries_persist two_tables FindExtremes [PObj 0] []
              st run.1 run.2 (surjective_pairing _))
    as (Hpersist & Hisolated & _ & Hshared).
  pose proof (proj1 find_extremes_1_stored) as Hst. cbv zeta in Hst.
  fold st in Hst.
  split; [exact Hst|]. split; [by apply Hpersist|].
  split; [by apply Hisolated|].
  intros v Hv. by apply (Hshared v ([PObj 1], [])).
Defined.
End Checks.

(** * Further properties of the memoizing decorator *)

Module CacheTraces.
Import Cache Traces CacheFacts.

Section counted_traces.
Context {K : Type} `{Countable K} {V W : Type}.
Context (f : list K → list (string * K) → M W V).

(** One call keeps every stored entry. *)
Lemma counted_call_keeps args kwargs (s : counted K V W) k v :
  cs_cache s !! k = Some v →
  cs_cache (counted_wrapper f args kwargs s).2 !! k = Some v.
Proof.
  intros Hk.
  destruct (cs_cache s !! make_key args kwargs) as [v'|] eqn:Hkey.
  { by rewrite (counted_hit f _ _ _ v'). }
  destruct (f args kwargs (cs_world s)) as [[v'|e] w] eqn:Hf.
  - rewrite (counted_miss_ok f _ _ _ v' w) by done. simpl.
    rewrite lookup_insert_ne; [done|]. intros <-. congruence.
  - by rewrite (counted_miss_raise f _ _ _ e w).
Qed.

Lemma run_calls_keeps cs (s : counted K V W) k v :
  cs_cache s !! k = Some v → cs_cache (run_calls f cs s) !! k = Some v.
Proof.
  revert s. induction cs as [|c cs IH]; intros s Hk; [done|].
  simpl. apply IH. by apply counted_call_keeps.
Qed.

(** X1. Once a call has returned a value, every later call with the
    same arguments returns that value without running the function,
    whatever calls were made in between and whatever the function would
    return now. *)
Theorem stored_value_is_final args kwargs (s s1 : counted K V W) v cs :
  counted_wrapper f args kwargs s = (Ok v, s1) →
  counted_wrapper f args kwargs (run_calls f cs s1)
  = (Ok v, run_calls f cs s1).
Proof.
  intros Hcall. apply counted_hit, run_calls_keeps.
  apply (wrapper_ok_stored counted_get counted_set (counting f)
           counted_get_set) in Hcall. exact Hcall.
Qed.

(** X2. For a function that never raises, the number of times it has
    run after any sequence of calls on a fresh cache is the number of
    distinct keys among the calls, and the cache holds exactly those
    keys. *)
Lemma size_list_to_set_cons_new (k : @key K) (cs : list (@key K)) (D : gset (@key K)) :
  k ∉ D →
  size (({[k]} ∪ list_to_set cs) ∖ D : gset (@key K))
  = S (size (list_to_set cs ∖ ({[k]} ∪ D) : gset (@key K))).
Proof.
  intros Hk.
  assert (Heq : (({[k]} ∪ list_to_set cs) ∖ D : gset (@key K))
                = {[k]} ∪ list_to_set cs ∖ ({[k]} ∪ D)).
  { apply set_eq. intros x.
    rewrite !elem_of_difference, !elem_of_union, !elem_of_difference,
      !elem_of_union, !elem_of_singleton.
    destruct (decide (x = k)) as [->|]; tauto. }
  rewrite Heq, size_union, size_singleton; [done|].
  intros x Hx1 Hx2. apply elem_of_singleton in Hx1 as ->.
  apply elem_of_difference in Hx2 as [_ Hx2]. apply Hx2.
  apply elem_of_union. left. by apply elem_of_singleton.
Qed.

Lemma list_to_set_cons_old (k : @key K) (cs : list (@key K)) (D : gset (@key K)) :
  k ∈ D →
  (({[k]} ∪ list_to_set cs) ∖ D : gset (@key K)) = list_to_set cs ∖ D.
Proof.
  intros Hk. apply set_eq. intros x.
  rewrite !elem_of_difference, !elem_of_union, !elem_of_singleton.
  split; [|tauto]. intros [[->|?] ?]; [done | tauto].
Qed.

Lemma run_calls_count cs (s : counted K V W) :
  (∀ args kwargs w, ∃ v w', f args kwargs w = (Ok v, w')) →
  cs_calls (run_calls f cs s)
  = cs_calls s + size (list_to_set cs ∖ dom (cs_cache s) : gset (@key K)) ∧
  dom (cs_cache (run_calls f cs s)) = dom (cs_cache s) ∪ list_to_set cs.
Proof.
  intros Htotal. revert s. induction cs as [|[args kwargs] cs IH]; intros s.
  { simpl. rewrite difference_disjoint_L, size_empty, union_empty_r_L
      by apply disjoint_empty_l. split; [lia | done]. }
  cbn [run_calls list_to_set foldr fst snd].
  destruct (cs_cache s !! make_key args kwargs) as [v|] eqn:Hkey.
  - rewrite (counted_hit f _ _ _ v) by done. cbn [snd].
    destruct (IH s) as [-> ->].
    assert (Hin : (args, kwargs) ∈ dom (cs_cache s))
      by (apply elem_of_dom; eauto).
    rewrite list_to_set_cons_old by done. split; [done|].
    rewrite (union_assoc_L (dom (cs_cache s))).
    f_equal. rewrite union_comm_L. symmetry.
    apply subseteq_union_1_L. by apply singleton_subseteq_l.
  - destruct (Htotal args kwargs (cs_world s)) as (v & w & Hf).
    rewrite (counted_miss_ok f _ _ _ v w) by done. cbn [snd].
    destruct (IH {| cs_cache := <[make_key args kwargs:=v]> (cs_cache s);
                    cs_world := w; cs_calls := S (cs_calls s) |})
      as [-> ->].
    cbn [cs_cache cs_calls]. rewrite dom_insert_L.
    assert (Hnotin : (args, kwargs) ∉ dom (cs_cache s))
      by (by apply not_elem_of_dom).
    rewrite size_list_to_set_cons_new by done. unfold make_key.
    split; [lia|].
    rewrite (union_comm_L {[(args, kwargs)]} (dom (cs_cache s))).
    by rewrite <- union_assoc_L.
Qed.

(** X2. For a function that never raises, the number of times it has
    run after any sequence of calls on a fresh cache is the number of
    distinct keys among the calls, and the cache holds exactly those
    keys. *)
Theorem runs_once_per_distinct_key cs (s : counted K V W) :
  (∀ args kwargs w, ∃ v w', f args kwargs w = (Ok v, w')) →
  cs_cache s = ∅ →
  cs_calls (run_calls f cs s)
  = cs_calls s + size (list_to_set cs : gset (@key K)) ∧
  dom (cs_cache (run_calls f cs s)) = list_to_set cs.
Proof.
  intros Htotal Hempty.
  destruct (run_calls_count cs s Htotal) as [-> ->].
  rewrite Hempty, dom_empty_L, difference_empty_L, union_empty_l_L. done.
Qed.
(** X3. A call that raises is not remembered however often it is
    repeated: [n] calls on arguments at which the function raises run it
    [n] times and leave the cache as it was. *)
Theorem raising_call_runs_every_time args kwargs (s : counted K V W) n :
  (∀ w, ∃ e w', f args kwargs w = (Raise e, w')) →
  cs_cache s !! make_key args kwargs = None →
  cs_calls (run_calls f (replicate n (args, kwargs)) s) = cs_calls s + n ∧
  cs_cache (run_calls f (replicate n (args, kwargs)) s) = cs_cache s.
Proof.
  intros Hraise. revert s. induction n as [|n IH]; intros s Hk.
  { simpl. split; [lia | done]. }
  cbn [replicate run_calls fst snd].
  destruct (Hraise (cs_world s)) as (e & w & Hf).
  rewrite (counted_miss_raise f _ _ _ e w) by done. cbn [snd].
  destruct (IH {| cs_cache := cs_cache s; cs_world := w;
                  cs_calls := S (cs_calls s) |} Hk) as [-> ->].
  simpl. split; [lia | done].
Qed.
End counted_traces.
End CacheTraces.

(** * Further properties of the pandas operations *)

Module PandasMore.
Import Pandas PandasFacts.

Lemma present_Num qs : present (Num <$> qs) = qs.
Proof.
  unfold present. induction qs as [|q qs IH]; [done|].
  csimpl. by rewrite IH.
Qed.

Lemma present_app a b : present (a ++ b) = present a ++ present b.
Proof. unfold present. apply omap_app. Qed.

Lemma present_replicate_NaN m : present (replicate m NaN) = [].
Proof. induction m as [|m IH]; [done|]. exact IH. Qed.

Lemma length_present_le l : length (present l) ≤ length l.
Proof.
  unfold present. induction l as [|[|q] l IH]; csimpl; simpl; lia.
Qed.

Lemma length_present_NaN l : NaN ∈ l → length (present l) < length l.
Proof.
  unfold present. induction l as [|c l IH]; intros Hin.
  - by apply elem_of_nil in Hin.
  - apply elem_of_cons in Hin as [<-|Hin].
    + csimpl. pose proof (length_present_le l). unfold present in *.
      simpl. lia.
    + specialize (IH Hin). destruct c; csimpl; simpl; lia.
Qed.

(** ** [rolling(window).mean()] *)

Lemma window_mean_short w rows : length rows < w → window_mean w rows = NaN.
Proof.
  intros Hl. unfold window_mean.
  pose proof (length_present_le (drop (length rows - w) rows)) as Hp.
  rewrite length_drop in Hp.
  rewrite (proj2 (Nat.leb_gt _ _)) by lia. done.
Qed.

Lemma window_mean_missing w rows :
  NaN ∈ drop (length rows - w) rows → window_mean w rows = NaN.
Proof.
  intros Hin. unfold window_mean.
  apply length_present_NaN in Hin. rewrite length_drop in Hin.
  rewrite (proj2 (Nat.leb_gt _ _)) by lia. done.
Qed.

Lemma window_mean_full w rows qs :
  0 < w → w ≤ length rows →
  drop (length rows - w) rows = Num <$> qs →
  window_mean w rows = Num (Qred (Qsum qs / inject_Z (Z.of_nat w))).
Proof.
  intros Hw Hl Hwin. unfold window_mean.
  assert (Hlen : length qs = w).
  { rewrite <- (length_fmap Num qs), <- Hwin, length_drop. lia. }
  rewrite Hwin, present_Num, Hlen.
  rewrite (proj2 (Nat.leb_le w w)) by lia.
  rewrite (proj2 (Nat.ltb_lt 0 w)) by lia. done.
Qed.

Lemma rolling_mean_lookup w t i :
  (0 <= w)%Z → i < length t →
  ∃ vs, rolling_mean w t = Ok vs ∧
        vs !! i = Some (window_mean (Z.to_nat w) (take (S i) t)).
Proof.
  intros Hw Hi. unfold rolling_mean.
  rewrite (proj2 (Z.ltb_ge w 0)) by done.
  eexists. split; [done|].
  by rewrite list_lookup_fmap, lookup_seq_lt.
Qed.

Lemma rolling_window_cells w (t : list cell) i :
  i < length t → w ≤ S i →
  drop (length (take (S i) t) - w) (take (S i) t)
  = take w (drop (S i - w) t).
Proof.
  intros Hi Hw. rewrite length_take, Nat.min_l by lia.
  rewrite take_drop_commute. f_equal. f_equal. lia.
Qed.

(** On a series without NaN the first [w - 1] cells are NaN and the
    others are numbers. *)
Lemma rolling_mean_count w qs vs :
  (1 <= w)%Z → rolling_mean w (Num <$> qs) = Ok vs →
  length (present vs) = S (length qs) - Z.to_nat w.
Proof.
  intros Hw. unfold rolling_mean.
  rewrite (proj2 (Z.ltb_ge w 0)) by lia. intros [= <-].
  rewrite length_fmap. set (k := Z.to_nat w).
  set (n := length qs).
  assert (Hsplit : seq 0 n = seq 0 ((k - 1) `min` n)
                             ++ seq ((k - 1) `min` n) (n - (k - 1))).
  { rewrite <- seq_app. f_equal. lia. }
  rewrite Hsplit, fmap_app, present_app.
  assert (Hhead :
    (λ i, window_mean k (take (S i) (Num <$> qs)))
      <$> seq 0 ((k - 1) `min` n)
    = replicate ((k - 1) `min` n) NaN).
  { apply list_eq. intros i. rewrite list_lookup_fmap.
    destruct (decide (i < (k - 1) `min` n)) as [Hi|Hi].
    - rewrite lookup_seq_lt, lookup_replicate_2 by done. simpl. f_equal.
      apply window_mean_short.
      rewrite length_take, length_fmap. fold n. lia.
    - rewrite lookup_seq_ge by lia. simpl. symmetry.
      apply lookup_replicate_None. lia. }
  rewrite Hhead, present_replicate_NaN. simpl.
  assert (Htail : ∃ ms,
    (λ i, window_mean k (take (S i) (Num <$> qs)))
      <$> seq ((k - 1) `min` n) (n - (k - 1))
    = Num <$> ms ∧ length ms = n - (k - 1)).
  { exists ((λ i, Qred (Qsum (take k (drop (S i - k) qs))
                         / inject_Z (Z.of_nat k)))
              <$> seq ((k - 1) `min` n) (n - (k - 1))).
    split; [|by rewrite length_fmap, length_seq].
    rewrite <- list_fmap_compose. apply list_fmap_ext.
    intros j i Hj. apply lookup_seq in Hj as [-> Hj]. simpl.
    assert (Hi : (k - 1) `min` n + j < n) by lia.
    apply window_mean_full.
    - unfold k. lia.
    - rewrite length_take, length_fmap. fold n. lia.
    - rewrite rolling_window_cells
        by (rewrite ?length_fmap; fold n; unfold k in *; lia).
      by rewrite <- fmap_drop, <- fmap_take. }
  destruct Htail as (ms & -> & Hms).
  rewrite present_Num, Hms. unfold k. lia.
Qed.

(** ** [diff()] *)

Lemma diff_lookup_0 t : 0 < length t → diff t !! 0 = Some NaN.
Proof.
  intros Hl. unfold diff. rewrite lookup_zip_with.
  change 1%Z with (Z.of_nat 1). rewrite shift_down_lookup by done.
  destruct (lookup_lt_is_Some_2 t 0 Hl) as [c ->]. simpl.
  by destruct c.
Qed.

Lemma diff_lookup_S t i b :
  t !! S i = Some b →
  diff t !! S i = Some (cell_sub b (default NaN (t !! i))).
Proof.
  intros Hb. unfold diff. rewrite lookup_zip_with, Hb.
  change 1%Z with (Z.of_nat 1).
  rewrite shift_down_lookup by (by apply lookup_lt_Some in Hb).
  simpl. by rewrite Nat.sub_0_r.
Qed.

Lemma diff_Num_count qs :
  length (present (diff (Num <$> qs))) = length qs - 1.
Proof.
  destruct qs as [|q qs]; [done|].
  assert (Hd : diff (Num <$> q :: qs)
               = NaN :: (Num <$> zip_with (λ b a, Qred (b - a)) qs (q :: qs))).
  { apply list_eq. intros [|i].
    - by rewrite diff_lookup_0 by (simpl; lia).
    - change (diff (Num <$> q :: qs) !! S i
              = (Num <$> zip_with (λ b a, Qred (b - a)) qs (q :: qs)) !! i).
      rewrite list_lookup_fmap, lookup_zip_with.
      destruct (decide (i < length qs)) as [Hi|Hi].
      + destruct (lookup_lt_is_Some_2 qs i Hi) as [b Hb].
        rewrite (diff_lookup_S _ i (Num b))
          by (simpl; by rewrite list_lookup_fmap, Hb).
        rewrite Hb. simpl.
        destruct i as [|j]; simpl.
        * done.
        * rewrite list_lookup_fmap.
          destruct (lookup_lt_is_Some_2 qs j) as [a Ha]; [lia|].
          by rewrite Ha.
      + rewrite (lookup_ge_None_2 qs i) by lia.
        transitivity (@None cell); [|done].
        apply lookup_ge_None_2.
        rewrite length_diff, length_fmap. simpl. lia. }
  rewrite Hd. change (present (NaN :: ?l)) with (present l).
  rewrite present_Num, length_zip_with. simpl. lia.
Qed.

(** ** [autocorr] *)

Lemma valid_pairs_swap a b :
  valid_pairs b a = prod_swap <$> valid_pairs a b.
Proof.
  unfold valid_pairs. revert b.
  induction a as [|x a IH]; intros [|y b]; try done.
  csimpl. rewrite IH. by destruct x, y.
Qed.

(** The rows that survive in [corr(shift(-k))]. *)
Lemma valid_pairs_shift_up (k : nat) t :
  0 < k →
  valid_pairs t (shift (- Z.of_nat k) t)
  = valid_pairs (take (length t - k) t) (drop k t).
Proof.
  intros Hk. unfold shift.
  rewrite (proj2 (Z.leb_gt 0 (- Z.of_nat k))) by lia.
  rewrite Z.opp_involutive, Nat2Z.id.
  rewrite <- (take_drop (length t - k) t) at 1.
  rewrite valid_pairs_app
    by (rewrite length_take, length_drop; lia).
  rewrite valid_pairs_NaN_r. by rewrite app_nil_r.
Qed.

Lemma autocorr_overlap_up (k : nat) t :
  0 < k →
  autocorr (- Z.of_nat k) t = corr (take (length t - k) t) (drop k t).
Proof. intros Hk. unfold autocorr, corr. by rewrite valid_pairs_shift_up. Qed.

Lemma autocorr_little_overlap lag t :
  (Z.of_nat (length t) - 1 <= Z.abs lag)%Z → autocorr lag t = None.
Proof.
  intros Hlag. destruct (Z.le_ge_cases 0 lag) as [Hp|Hn].
  - rewrite <- (Z2Nat.id lag) by done. rewrite autocorr_overlap.
    apply corr_one_pair.
    etrans; [apply valid_pairs_length_le|]. rewrite length_drop. lia.
  - destruct (decide (lag = 0%Z)) as [->|Hne].
    { change 0%Z with (Z.of_nat 0). rewrite autocorr_overlap.
      apply corr_one_pair.
      etrans; [apply valid_pairs_length_le|]. rewrite length_drop. lia. }
    rewrite <- (Z.opp_involutive lag), <- (Z2Nat.id (- lag)) by lia.
    rewrite autocorr_overlap_up by lia.
    apply corr_one_pair.
    etrans; [apply valid_pairs_length_le|]. rewrite length_take. lia.
Qed.

(** ** Local extrema *)

Lemma local_max_not_min t i :
  is_local_max t i = true → is_local_min t i = false.
Proof.
  unfold is_local_max, is_local_min.
  destruct (neighbours t i) as [[[a b] c]|]; [|done].
  intros [Hab _]%andb_true_iff. apply andb_false_iff. left.
  destruct a as [|a], b as [|b]; try done. simpl in *.
  apply Qltb_lt in Hab. apply not_true_iff_false. rewrite Qltb_lt.
  by apply Qle_not_lt, Qlt_le_weak.
Qed.

Lemma local_max_not_adjacent t i :
  is_local_max t i = true → is_local_max t (S i) = false.
Proof.
  intros Hi. apply not_true_iff_false. intros Hs.
  apply ProcessorFacts.is_local_max_spec in Hi
    as (a & b & c & _ & _ & _ & Hb & Hc & _ & Hcb).
  apply ProcessorFacts.is_local_max_spec in Hs
    as (a' & b' & c' & _ & _ & Ha' & Hb' & _ & Hab' & _).
  replace (S i - 1) with i in Ha' by lia.
  replace (i + 1) with (S i) in Hc by lia.
  simplify_eq. by apply (Qlt_irrefl b), (Qlt_trans _ c).
Qed.

Lemma local_min_not_adjacent t i :
  is_local_min t i = true → is_local_min t (S i) = false.
Proof.
  intros Hi. apply not_true_iff_false. intros Hs.
  apply ProcessorFacts.is_local_min_spec in Hi
    as (a & b & c & _ & _ & _ & Hb & Hc & _ & Hcb).
  apply ProcessorFacts.is_local_min_spec in Hs
    as (a' & b' & c' & _ & _ & Ha' & Hb' & _ & Hab' & _).
  replace (S i - 1) with i in Ha' by lia.
  replace (i + 1) with (S i) in Hc by lia.
  simplify_eq. by apply (Qlt_irrefl b), (Qlt_trans _ c).
Qed.

Lemma rows_where_none (P : nat → bool) (s : Series) :
  (∀ i, i < length s → P i = false) → rows_where P s = [].
Proof.
  intros HP. destruct (rows_where P s) as [|row l] eqn:Hrows; [done|].
  assert (Hin : row ∈ rows_where P s) by (rewrite Hrows; left).
  apply elem_of_rows_where in Hin as (i & Hi & HPi).
  apply lookup_lt_Some in Hi. rewrite HP in HPi by done. done.
Qed.

Lemma length_omap_le {A B} (f : A → option B) (l : list A) :
  length (omap f l) ≤ length l.
Proof.
  induction l as [|x l IH]; [done|]. csimpl.
  destruct (f x); simpl; lia.
Qed.

Lemma length_rows_where_lt (P : nat → bool) (s : Series) :
  s ≠ [] → P 0 = false → length (rows_where P s) < length s.
Proof.
  intros Hs HP. unfold rows_where.
  destruct s as [|row s]; [done|]. cbn [length seq].
  rewrite filter_cons_False by (rewrite HP; done).
  eapply Nat.le_lt_trans; [apply length_omap_le|].
  eapply Nat.le_lt_trans; [apply length_filter|].
  rewrite length_seq. lia.
Qed.
End PandasMore.

(** * Further properties of the processor *)

Module ProcessorMore.
Import Cache Pandas WeatherDataProcessor Traces.
Import CacheFacts PandasFacts ProcessorFacts PandasMore.

Section with_data.
Context (data_of : nat → Series).

Local Abbreviation moving_average := (moving_average data_of).
Local Abbreviation differential := (differential data_of).
Local Abbreviation autocorrelation := (autocorrelation data_of).
Local Abbreviation find_extremes := (find_extremes data_of).
Local Abbreviation process_data := (process_data data_of).
Local Abbreviation reachable := (reachable data_of).
Local Abbreviation call := (call data_of).

Lemma returning_run {A} (inj : A → value) (m : M caches A) st r st' :
  m st = (r, st') → returning inj m st = (result_map inj r, st').
Proof. intros Hm. unfold returning. by rewrite Hm. Qed.

(** X4. On every state the program can reach, each of the five cached
    operations returns exactly what its undecorated body computes from
    the arguments and the object's table: the caches never change a
    result. *)
Theorem cached_call_is_transparent m args kwargs st :
  reachable st →
  ∃ st', call m args kwargs st = (call_pure data_of m args kwargs, st') ∧
         reachable st'.
Proof.
  intros Hr. pose proof (reachable_coherent _ _ Hr) as Hc.
  assert (Hrun : ∃ st', call m args kwargs st
                        = (call_pure data_of m args kwargs, st')).
  { destruct m; simpl.
    - destruct (moving_average_computes _ args kwargs st Hc) as (st' & H & _).
      exists st'. by apply returning_run.
    - destruct (differential_computes _ args kwargs st Hc) as (st' & H & _).
      exists st'. by apply returning_run.
    - destruct (autocorrelation_computes _ args kwargs st Hc) as (st' & H & _).
      exists st'. by apply returning_run.
    - destruct (find_extremes_computes _ args kwargs st Hc) as (st' & H & _).
      exists st'. by apply returning_run.
    - destruct (process_data_computes _ args kwargs st Hc) as (st' & H & _).
      exists st'. by apply returning_run. }
  destruct Hrun as (st' & Hrun). exists st'. split; [done|].
  exact (reachable_call _ _ _ _ _ _ _ Hr Hrun).
Qed.

Lemma call_stores m args kwargs st v st' :
  call m args kwargs st = (Ok v, st') →
  entry m (args, kwargs) st' = Some v.
Proof.
  destruct m; simpl;
    unfold returning, WeatherDataProcessor.moving_average,
      WeatherDataProcessor.differential, WeatherDataProcessor.autocorrelation,
      WeatherDataProcessor.find_extremes, WeatherDataProcessor.process_data;
    intros Hcall;
    (destruct (wrapper _ _ _ args kwargs st) as [[x|e] st1] eqn:Hrun;
      [|done]); injection Hcall as <- <-;
    (apply wrapper_ok_stored in Hrun; [|done]);
    unfold make_key in Hrun; by rewrite Hrun.
Qed.

Lemma entry_answers m k st v :
  entry m k st = Some v → call m k.1 k.2 st = (Ok v, st).
Proof.
  destruct k as [args kwargs].
  destruct m; simpl;
    unfold returning, WeatherDataProcessor.moving_average,
      WeatherDataProcessor.differential, WeatherDataProcessor.autocorrelation,
      WeatherDataProcessor.find_extremes, WeatherDataProcessor.process_data;
    intros (x & Hx & ->)%fmap_Some;
    by rewrite (wrapper_hit _ _ _ _ _ _ x Hx).
Qed.

Lemma call_all_keeps cs st m k v :
  entry m k st = Some v → entry m k (call_all data_of cs st) = Some v.
Proof.
  revert st. induction cs as [|[m' [a kw]] cs IH]; intros st Hk; [done|].
  cbn [call_all fst snd]. apply IH.
  destruct (call m' a kw st) as [r st'] eqn:Hcall. cbn [snd].
  eapply grows_persists; [|exact Hk]. by eapply call_grows.
Qed.

(** X5. Once an operation has returned a value, the same call keeps
    returning that value, without changing any cache, whatever other
    calls are made in between (on any operation, object or arguments). *)
Theorem call_answer_is_final m args kwargs st v st1 cs :
  call m args kwargs st = (Ok v, st1) →
  call m args kwargs (call_all data_of cs st1)
  = (Ok v, call_all data_of cs st1).
Proof.
  intros Hcall. apply (entry_answers m (args, kwargs)).
  apply call_all_keeps. by eapply call_stores.
Qed.

(** X6. Passing the window by position or by keyword gives the same
    result, but the two calls are remembered under two different keys:
    after both, the cache holds the value twice. *)
Theorem positional_and_keyword_window st self w :
  reachable st →
  ∃ r st1 st2,
    moving_average [PObj self; PInt w] [] st = (r, st1) ∧
    moving_average [PObj self] [("window", PInt w)] st1 = (r, st2) ∧
    ∀ v, r = Ok v →
      moving_average_cache st2 !! ([PObj self; PInt w], []) = Some v ∧
      moving_average_cache st2 !! ([PObj self], [("window", PInt w)])
      = Some v.
Proof.
  intros Hr. pose proof (reachable_coherent _ _ Hr) as Hc.
  destruct (moving_average_computes _ [PObj self; PInt w] [] st Hc)
    as (st1 & Hrun1 & Hc1).
  destruct (moving_average_computes _ [PObj self] [("window", PInt w)] st1 Hc1)
    as (st2 & Hrun2 & _).
  eexists _, st1, st2. split; [exact Hrun1|]. split; [exact Hrun2|].
  intros v Hv. rewrite Hv in Hrun1.
  change (moving_average_func data_of [PObj self] [("window", PInt w)])
    with (moving_average_func data_of [PObj self; PInt w] []) in Hrun2.
  rewrite Hv in Hrun2.
  apply wrapper_ok_stored in Hrun1; [|done].
  pose proof Hrun2 as Hstored. apply wrapper_ok_stored in Hstored; [|done].
  split; [|exact Hstored].
  destruct (moving_average_preserves _ _ _ _ _ _ Hrun2) as [(Hg & _) _].
  eapply grows_map_persists; [exact Hg | exact Hrun1].
Qed.

(** ** What the operations return *)

(** X7. For a window [w >= 1], [moving_average(w)] keeps the index; row
    [i] is NaN while fewer than [w] rows end at [i] and whenever one of
    the [w] rows ending at [i] is NaN, and is otherwise their mean. *)
Theorem moving_average_cells st self w :
  reachable st →
  (1 <= w)%Z →
  let s := data_of self in
  let t := values s in
  ∃ ma st',
    moving_average [PObj self; PInt w] [] st = (Ok ma, st') ∧
    index ma = index s ∧
    ∀ i, i < length s →
      let window := take (Z.to_nat w) (drop (S i - Z.to_nat w) t) in
      (S i < Z.to_nat w → values ma !! i = Some NaN) ∧
      (Z.to_nat w ≤ S i → NaN ∈ window → values ma !! i = Some NaN) ∧
      (∀ qs, Z.to_nat w ≤ S i → window = Num <$> qs →
         values ma !! i = Some (Num (Qred (Qsum qs / inject_Z w)))).
Proof.
  intros Hr Hw s t.
  destruct (run_computes _ _ _ _ Hr
              (moving_average_computes _ [PObj self; PInt w] []))
    as (st' & Hrun & _).
  unfold moving_average_func in Hrun. simpl bind_args in Hrun.
  cbv iota in Hrun. fold s t in Hrun.
  destruct (rolling_mean_Ok w t) as (vs & Hvs & Hlen); [lia|].
  rewrite Hvs in Hrun. simpl result_map in Hrun.
  assert (Hnt : length t = length s) by apply length_values.
  eexists _, st'. split; [exact Hrun|].
  rewrite index_with_values, values_with_values by congruence.
  split; [done|]. intros i Hi window.
  destruct (rolling_mean_lookup w t i) as (vs' & Hvs' & Hcell);
    [lia | lia |].
  rewrite Hvs in Hvs'. injection Hvs' as <-. rewrite Hcell.
  assert (Hrows : length (take (S i) t) = S i)
    by (rewrite length_take; lia).
  split; [|split].
  - intros Hshort. f_equal. apply window_mean_short. lia.
  - intros Hle Hnan. f_equal. apply window_mean_missing.
    by rewrite rolling_window_cells by lia.
  - intros qs Hle Hqs. f_equal.
    rewrite (window_mean_full _ _ qs); [|lia|lia|].
    + by rewrite Z2Nat.id by lia.
    + by rewrite rolling_window_cells by lia.
Qed.

(** X8. On a series without NaN, [moving_average(w)] with [w >= 1] has
    exactly [len - w + 1] defined values, none when the window is longer
    than the series. *)
Theorem moving_average_defined_count st self w qs :
  reachable st →
  (1 <= w)%Z →
  values (data_of self) = Num <$> qs →
  ∃ ma st',
    moving_average [PObj self; PInt w] [] st = (Ok ma, st') ∧
    length (present (values ma)) = S (length (data_of self)) - Z.to_nat w.
Proof.
  intros Hr Hw Hqs.
  destruct (run_computes _ _ _ _ Hr
              (moving_average_computes _ [PObj self; PInt w] []))
    as (st' & Hrun & _).
  unfold moving_average_func in Hrun. simpl bind_args in Hrun.
  cbv iota in Hrun.
  destruct (rolling_mean_Ok w (values (data_of self)))
    as (vs & Hvs & Hlen); [lia|].
  rewrite Hvs in Hrun. simpl result_map in Hrun.
  eexists _, st'. split; [exact Hrun|].
  rewrite values_with_values by (by rewrite Hlen, length_values).
  rewrite Hqs in Hvs. rewrite (rolling_mean_count w qs vs Hw Hvs).
  by rewrite <- (length_values (data_of self)), Hqs, length_fmap.
Qed.

(** X9. [differential()] keeps the index; its first row is NaN; row
    [i + 1] is the value of row [i + 1] minus the value of row [i], and
    NaN when either is NaN; on a series without NaN it has [len - 1]
    defined values. *)
Theorem differential_cells st self :
  reachable st →
  let s := data_of self in
  let t := values s in
  ∃ d st',
    differential [PObj self] [] st = (Ok d, st') ∧
    index d = index s ∧
    (0 < length s → values d !! 0 = Some NaN) ∧
    (∀ i a b, t !! i = Some (Num a) → t !! S i = Some (Num b) →
       ∃ q, values d !! S i = Some (Num q) ∧ (q == b - a)%Q) ∧
    (∀ i, S i < length s →
       t !! i = Some NaN ∨ t !! S i = Some NaN →
       values d !! S i = Some NaN) ∧
    (∀ qs, t = Num <$> qs → length (present (values d)) = length s - 1).
Proof.
  intros Hr s t.
  destruct (run_computes _ _ _ _ Hr (differential_computes _ [PObj self] []))
    as (st' & Hrun & _).
  unfold differential_func in Hrun. simpl bind_args in Hrun.
  cbv iota in Hrun. fold s t in Hrun.
  assert (Hnt : length t = length s) by apply length_values.
  eexists _, st'. split; [exact Hrun|].
  rewrite index_with_values, values_with_values
    by (rewrite length_diff; congruence).
  split; [done|]. split; [|split; [|split]].
  - intros Hn. apply diff_lookup_0. lia.
  - intros i a b Ha Hb. rewrite (diff_lookup_S t i (Num b) Hb), Ha. simpl.
    eexists. split; [done|]. apply Qred_correct.
  - intros i Hi Hnan.
    destruct (lookup_lt_is_Some_2 t (S i)) as [b Hb]; [lia|].
    rewrite (diff_lookup_S t i b Hb).
    destruct Hnan as [Ha|Hb']; [rewrite Ha; by destruct b|].
    rewrite Hb' in Hb. by injection Hb as <-.
  - intros qs Hqs. rewrite Hqs, diff_Num_count.
    by rewrite <- Hnt, Hqs, length_fmap.
Qed.


Lemma autocorrelation_runs st self lag :
  coherent data_of st →
  ∃ st', autocorrelation [PObj self; PInt lag] [] st
         = (Ok (autocorr lag (values (data_of self))), st') ∧
         coherent data_of st'.
Proof.
  intros Hc.
  exact (autocorrelation_computes _ [PObj self; PInt lag] [] st Hc).
Qed.

(** X10. [autocorrelation(-lag)] correlates the same two overlapping
    segments as [autocorrelation(lag)], with the two exchanged: the same
    pairs of values, each pair swapped.  In exact arithmetic the two
    coefficients are equal; the float64 results need not agree in the
    last digit, numpy dividing by the two standard deviations in the
    other order. *)
Theorem autocorrelation_lag_sign st self lag :
  reachable st →
  (0 < lag)%Z →
  let t := values (data_of self) in
  let k := Z.to_nat lag in
  let a := drop k t in
  let b := take (length t - k) t in
  (∃ st', autocorrelation [PObj self; PInt lag] [] st
          = (Ok (corr a b), st')) ∧
  (∃ st', autocorrelation [PObj self; PInt (- lag)] [] st
          = (Ok (corr b a), st')) ∧
  valid_pairs b a = prod_swap <$> valid_pairs a b ∧
  corrcoef exact (Q2R <$> (valid_pairs a b).*1) (Q2R <$> (valid_pairs a b).*2)
  = corrcoef exact (Q2R <$> (valid_pairs b a).*1)
                   (Q2R <$> (valid_pairs b a).*2).
Proof.
  intros Hr Hlag t k a b. pose proof (reachable_coherent _ _ Hr) as Hc.
  split; [|split; [|split]].
  - destruct (autocorrelation_runs st self lag Hc) as (st1 & Hrun1 & _).
    exists st1. rewrite Hrun1. fold t.
    rewrite <- (Z2Nat.id lag) at 1 by lia. fold k.
    by rewrite autocorr_overlap.
  - destruct (autocorrelation_runs st self (- lag) Hc) as (st1 & Hrun1 & _).
    exists st1. rewrite Hrun1. fold t.
    rewrite <- (Z2Nat.id lag) at 1 by lia. fold k.
    by rewrite autocorr_overlap_up by lia.
  - apply valid_pairs_swap.
  - rewrite (valid_pairs_swap a b), <- !list_fmap_compose.
    rewrite corrcoef_exact_comm by (by rewrite !length_fmap).
    f_equal; apply list_fmap_ext; by intros ? [??] _.
Qed.

(** X11. A coefficient returned by [autocorrelation] lies between -1
    and 1. *)
Theorem autocorrelation_in_range st self lag r st' :
  reachable st →
  autocorrelation [PObj self; PInt lag] [] st = (Ok (Some r), st') →
  (-1 <= r <= 1)%R.
Proof.
  intros Hr Hrun. pose proof (reachable_coherent _ _ Hr) as Hc.
  destruct (autocorrelation_runs st self lag Hc) as (st1 & Hrun1 & _).
  rewrite Hrun1 in Hrun. injection Hrun as Hx _.
  by apply corr_in_range in Hx.
Qed.

(** X12. When at most one row of the series overlaps its shifted copy,
    that is for every lag with [|lag| >= len - 1], [autocorrelation] is
    NaN; in particular the last lag the generator produces is NaN. *)
Theorem autocorrelation_little_overlap_nan st self lag :
  reachable st →
  (Z.of_nat (length (data_of self)) - 1 <= Z.abs lag)%Z →
  ∃ st', autocorrelation [PObj self; PInt lag] [] st = (Ok None, st').
Proof.
  intros Hr Hlag. pose proof (reachable_coherent _ _ Hr) as Hc.
  destruct (autocorrelation_runs st self lag Hc) as (st1 & Hrun1 & _).
  exists st1. rewrite Hrun1, autocorr_little_overlap; [done|].
  by rewrite length_values.
Qed.

Lemma find_extremes_runs st self :
  coherent data_of st →
  ∃ st', find_extremes [PObj self] [] st
         = (Ok (rows_where (is_local_max (values (data_of self)))
                  (data_of self),
                rows_where (is_local_min (values (data_of self)))
                  (data_of self)), st') ∧
         coherent data_of st'.
Proof.
  intros Hc.
  destruct (find_extremes_computes _ [PObj self] [] st Hc)
    as (st' & Hrun & Hc').
  exists st'. split; [|done]. by rewrite Hrun, find_extremes_func_rows.
Qed.

(** With distinct labels, a selected row sits at a selected position. *)
Lemma rows_where_position (P : nat → bool) (s : Series) i row :
  NoDup (index s) → s !! i = Some row → row ∈ rows_where P s →
  P i = true.
Proof.
  intros Hnd Hi (j & Hj & HP)%elem_of_rows_where.
  destruct row as [l v].
  apply series_lookup_label in Hi as [Hi _].
  apply series_lookup_label in Hj as [Hj _].
  by rewrite (NoDup_lookup _ _ _ _ Hnd Hi Hj).
Qed.

(** X13. The two series [find_extremes] returns are sub-sequences of the
    input rows, in row order; on a table with distinct timestamps no row
    is both a maximum and a minimum, and two neighbouring rows are never
    both maxima nor both minima. *)
Theorem extremes_never_overlap st self :
  reachable st →
  NoDup (index (data_of self)) →
  let s := data_of self in
  ∃ maxima minima st',
    find_extremes [PObj self] [] st = (Ok (maxima, minima), st') ∧
    sublist maxima s ∧ sublist minima s ∧
    (∀ row, row ∈ maxima → row ∉ minima) ∧
    (∀ i r1 r2, s !! i = Some r1 → s !! S i = Some r2 →
       ¬ (r1 ∈ maxima ∧ r2 ∈ maxima) ∧ ¬ (r1 ∈ minima ∧ r2 ∈ minima)).
Proof.
  intros Hr Hnd s. pose proof (reachable_coherent _ _ Hr) as Hc.
  destruct (find_extremes_runs st self Hc) as (st' & Hrun & _).
  eexists _, _, st'. split; [exact Hrun|]. fold s.
  split; [apply rows_where_sublist|]. split; [apply rows_where_sublist|].
  split.
  - intros row Hmax Hmin.
    pose proof Hmax as (i & Hi & HP)%elem_of_rows_where.
    pose proof (rows_where_position _ _ _ _ Hnd Hi Hmin) as HQ.
    apply local_max_not_min in HP. congruence.
  - intros i r1 r2 H1 H2. split; intros [Hin1 Hin2].
    + pose proof (rows_where_position _ _ _ _ Hnd H1 Hin1) as HP1.
      pose proof (rows_where_position _ _ _ _ Hnd H2 Hin2) as HP2.
      apply local_max_not_adjacent in HP1. congruence.
    + pose proof (rows_where_position _ _ _ _ Hnd H1 Hin1) as HP1.
      pose proof (rows_where_position _ _ _ _ Hnd H2 Hin2) as HP2.
      apply local_min_not_adjacent in HP1. congruence.
Qed.

(** X14. On a series that never decreases, or never increases, from one
    row to the next, [find_extremes] returns two empty series. *)
Theorem monotone_series_has_no_extremes st self :
  reachable st →
  let t := values (data_of self) in
  (∀ i a b, t !! i = Some (Num a) → t !! S i = Some (Num b) → (a <= b)%Q) ∨
  (∀ i a b, t !! i = Some (Num a) → t !! S i = Some (Num b) → (b <= a)%Q) →
  ∃ st', find_extremes [PObj self] [] st = (Ok ([], []), st').
Proof.
  intros Hr t Hmono. pose proof (reachable_coherent _ _ Hr) as Hc.
  destruct (find_extremes_runs st self Hc) as (st' & Hrun & _).
  exists st'. rewrite Hrun. fold t. do 2 f_equal. f_equal.
  - apply rows_where_none. intros i _. apply not_true_iff_false.
    intros (a & b & c & Hi & _ & Ha & Hb & Hc' & Hab & Hcb)%is_local_max_spec.
    destruct Hmono as [Hup|Hdown].
    + replace (i + 1) with (S i) in Hc' by lia.
      pose proof (Hup i b c Hb Hc'). by apply (Qlt_not_le c b).
    + destruct i as [|j]; [lia|].
      replace (S j - 1) with j in Ha by lia.
      pose proof (Hdown j a b Ha Hb). by apply (Qlt_not_le a b).
  - apply rows_where_none. intros i _. apply not_true_iff_false.
    intros (a & b & c & Hi & _ & Ha & Hb & Hc' & Hab & Hcb)%is_local_min_spec.
    destruct Hmono as [Hup|Hdown].
    + destruct i as [|j]; [lia|].
      replace (S j - 1) with j in Ha by lia.
      pose proof (Hup j a b Ha Hb). by apply (Qlt_not_le b a).
    + replace (i + 1) with (S i) in Hc' by lia.
      pose proof (Hdown i b c Hb Hc'). by apply (Qlt_not_le b c).
Qed.


(** ** The lag generator and [process_data] *)

Lemma bind_Ok_inv {S A B} (m : M S A) (k : A → M S B) s b s' :
  (m ≫= k) s = (Ok b, s') →
  ∃ a s1, m s = (Ok a, s1) ∧ k a s1 = (Ok b, s').
Proof.
  unfold mbind, M_bind. destruct (m s) as [[a|e] s1]; [|done]. eauto.
Qed.

Lemma lift_Ok_inv {S A} (r : result A) (s : S) a s' :
  lift r s = (Ok a, s') → r = Ok a ∧ s' = s.
Proof. unfold lift. by intros [= -> ->]. Qed.

(** After the generator has run, every lag it produced is stored. *)
Lemma generator_stores self lags st ys st' :
  mapM (λ lag, autocorrelation [PObj self; PInt (Z.of_nat lag)] []) lags st
  = (Ok ys, st') →
  ∀ lag, lag ∈ lags →
    is_Some (autocorrelation_cache st'
               !! ([PObj self; PInt (Z.of_nat lag)], [])).
Proof.
  revert st ys. induction lags as [|l lags IH]; intros st ys Hrun lag Hin.
  { by apply elem_of_nil in Hin. }
  cbn [mapM] in Hrun.
  apply bind_Ok_inv in Hrun as (y & st1 & Hy & Hrun).
  apply bind_Ok_inv in Hrun as (ys' & st2 & Hys & Hret).
  injection Hret as _ <-.
  apply elem_of_cons in Hin as [->|Hin]; [|by eapply IH].
  apply wrapper_ok_stored in Hy; [|done].
  destruct (preserves_mapM
              (key_self ([PObj self], []))
              (λ lag, autocorrelation [PObj self; PInt (Z.of_nat lag)] [])
              lags
              (λ lag, autocorrelation_preserves data_of _ [])
              _ _ _ Hys) as [(_ & _ & Hg & _) _].
  exists y. eapply grows_map_persists; [exact Hg | exact Hy].
Qed.

(** A list of calls that are all stored is answered without a change. *)
Lemma generator_answers self lags st :
  (∀ lag, lag ∈ lags →
     is_Some (autocorrelation_cache st
                !! ([PObj self; PInt (Z.of_nat lag)], []))) →
  coherent data_of st →
  mapM (λ lag, autocorrelation [PObj self; PInt (Z.of_nat lag)] []) lags st
  = (Ok ((λ lag, autocorr (Z.of_nat lag) (values (data_of self))) <$> lags),
     st).
Proof.
  intros Hstored Hc. revert Hstored.
  induction lags as [|l lags IH]; intros Hstored; [done|].
  cbn [mapM fmap list_fmap].
  destruct (Hstored l) as [x Hx]; [left|].
  pose proof (wrapper_hit autocorrelation_cache set_autocorrelation_cache
                (λ a kw, lift (autocorrelation_func data_of a kw))
                [PObj self; PInt (Z.of_nat l)] [] st x Hx) as Hhit.
  destruct (autocorrelation_runs st self (Z.of_nat l) Hc) as (st1 & Hrun & _).
  unfold WeatherDataProcessor.autocorrelation in Hrun.
  rewrite Hhit in Hrun. injection Hrun as -> _.
  rewrite (bind_ok _ _ _ _ _ Hhit).
  assert (Hrest : ∀ lag, lag ∈ lags →
            is_Some (autocorrelation_cache st
                       !! ([PObj self; PInt (Z.of_nat lag)], [])))
    by (intros lag Hin; apply Hstored; by right).
  by rewrite (bind_ok _ _ _ _ _ (IH Hrest)).
Qed.

(** X15. The lag generator yields one value per row, the value at
    position [i] being [autocorrelation(i)]; run again, it yields the
    same list and leaves every cache as it is. *)
Theorem autocorrelation_generator_restarts st self :
  reachable st →
  let t := values (data_of self) in
  ∃ acs st',
    autocorrelation_generator data_of self st = (Ok acs, st') ∧
    length acs = length (data_of self) ∧
    (∀ i, i < length (data_of self) →
       acs !! i = Some (autocorr (Z.of_nat i) t)) ∧
    autocorrelation_generator data_of self st' = (Ok acs, st').
Proof.
  intros Hr t. pose proof (reachable_coherent _ _ Hr) as Hc.
  unfold autocorrelation_generator.
  destruct (computes_mapM data_of
              (λ lag, autocorrelation [PObj self; PInt (Z.of_nat lag)] [])
              (λ lag, autocorr (Z.of_nat lag) t)
              (seq 0 (length (data_of self)))
              (λ lag, autocorrelation_computes data_of
                        [PObj self; PInt (Z.of_nat lag)] [])
              st Hc) as (st' & Hrun & Hc').
  eexists _, st'. split; [exact Hrun|].
  split; [by rewrite length_fmap, length_seq|]. split.
  - intros i Hi. by rewrite list_lookup_fmap, lookup_seq_lt.
  - apply generator_answers; [|done].
    by eapply generator_stores.
Qed.

Lemma warmed_grows o self st st' :
  grows o st st' → warmed data_of self st → warmed data_of self st'.
Proof.
  intros (Hma & Hd & Hac & Hfe & _) (H1 & H2 & H3 & H4).
  repeat split.
  - destruct H1 as [x Hx]. exists x. by eapply grows_map_persists.
  - destruct H2 as [x Hx]. exists x. by eapply grows_map_persists.
  - destruct H3 as [x Hx]. exists x. by eapply grows_map_persists.
  - intros lag Hlag. destruct (H4 lag Hlag) as [x Hx].
    exists x. by eapply grows_map_persists.
Qed.

(** When the body of [process_data] returns, it has left the entries of
    the calls it made. *)
Lemma process_data_func_warms args kwargs self st tbl st1 :
  bind_args ["self"] args kwargs = Ok [PObj self] →
  process_data_func data_of args kwargs st = (Ok tbl, st1) →
  warmed data_of self st1.
Proof.
  intros Hb Hrun. unfold process_data_func in Hrun. rewrite Hb in Hrun.
  apply bind_Ok_inv in Hrun as (r1 & s1 & H1 & Hrun).
  apply lift_Ok_inv in H1 as [_ ->].
  apply bind_Ok_inv in Hrun as (ma & s2 & Hma & Hrun).
  apply bind_Ok_inv in Hrun as (r2 & s3 & H2 & Hrun).
  apply lift_Ok_inv in H2 as [_ ->].
  apply bind_Ok_inv in Hrun as (d & s4 & Hd & Hrun).
  apply bind_Ok_inv in Hrun as (r3 & s5 & H3 & Hrun).
  apply lift_Ok_inv in H3 as [_ ->].
  apply bind_Ok_inv in Hrun as (ac & s6 & Hac & Hrun).
  apply bind_Ok_inv in Hrun as (r4 & s7 & H4 & Hrun).
  apply lift_Ok_inv in H4 as [_ ->].
  apply bind_Ok_inv in Hrun as (fe & s8 & Hfe & Hrun).
  apply bind_Ok_inv in Hrun as (r5 & s9 & H5 & Hrun).
  apply lift_Ok_inv in H5 as [_ ->].
  apply bind_Ok_inv in Hrun as (r6 & s10 & H6 & Hrun).
  apply lift_Ok_inv in H6 as [_ ->].
  injection Hrun as _ <-.
  destruct (differential_preserves _ _ _ _ _ _ Hd) as [Hg24 _].
  assert (Hg46 : grows (key_self ([PObj self], [])) s4 s6).
  { unfold autocorrelation_generator in Hac.
    eapply (preserves_mapM _ _ _
              (λ lag, autocorrelation_preserves data_of
                        [PObj self; PInt (Z.of_nat lag)] [])); exact Hac. }
  destruct (find_extremes_preserves _ _ _ _ _ _ Hfe) as [Hg68 _].
  pose proof (generator_stores _ _ _ _ _ Hac) as Hlags.
  apply wrapper_ok_stored in Hma; [|done].
  apply wrapper_ok_stored in Hd; [|done].
  apply wrapper_ok_stored in Hfe; [|done].
  destruct Hg24 as (G1 & _), Hg46 as (G2 & G2' & _),
    Hg68 as (G3 & G3' & G3'' & _).
  repeat split.
  - exists ma. do 3 (eapply grows_map_persists; [eassumption|]). exact Hma.
  - exists d. do 2 (eapply grows_map_persists; [eassumption|]). exact Hd.
  - by exists fe.
  - intros lag Hlag. destruct (Hlags lag) as [x Hx].
    { apply elem_of_seq. lia. }
    exists x. eapply grows_map_persists; [exact G3''|]. exact Hx.
Qed.


Lemma warmed_set_process_data_cache c self st :
  warmed data_of self (set_process_data_cache c st) ↔ warmed data_of self st.
Proof. reflexivity. Qed.

Lemma call_keeps_tables_warmed m args kwargs st r st' :
  tables_warmed data_of st →
  call m args kwargs st = (r, st') →
  tables_warmed data_of st'.
Proof.
  intros Hinv Hcall k tbl self Hk Hb.
  pose proof (call_grows _ _ _ _ _ _ _ Hcall) as Hg.
  destruct (process_data_cache st !! k) as [tbl0|] eqn:Hold.
  { eapply warmed_grows; [exact Hg|]. by eapply Hinv. }
  destruct m; simpl in Hcall; unfold returning in Hcall.
  - destruct (moving_average args kwargs st) as [r1 st1] eqn:Hrun.
    injection Hcall as _ <-.
    destruct (moving_average_preserves _ _ _ _ _ _ Hrun) as [_ Hpd].
    congruence.
  - destruct (differential args kwargs st) as [r1 st1] eqn:Hrun.
    injection Hcall as _ <-.
    destruct (differential_preserves _ _ _ _ _ _ Hrun) as [_ Hpd].
    congruence.
  - destruct (autocorrelation args kwargs st) as [r1 st1] eqn:Hrun.
    injection Hcall as _ <-.
    destruct (autocorrelation_preserves _ _ _ _ _ _ Hrun) as [_ Hpd].
    congruence.
  - destruct (find_extremes args kwargs st) as [r1 st1] eqn:Hrun.
    injection Hcall as _ <-.
    destruct (find_extremes_preserves _ _ _ _ _ _ Hrun) as [_ Hpd].
    congruence.
  - destruct (process_data args kwargs st) as [r1 st2] eqn:Hrun.
    injection Hcall as _ <-.
    unfold WeatherDataProcessor.process_data in Hrun.
    destruct (process_data_cache st !! make_key args kwargs) as [v|] eqn:Hkey.
    { rewrite (wrapper_hit _ _ _ _ _ _ v Hkey) in Hrun.
      injection Hrun as _ <-. congruence. }
    destruct (process_data_func data_of args kwargs st) as [[v|e] st1] eqn:Hf;
      destruct (process_data_func_preserves _ _ _ _ _ _ Hf) as [_ Hpd].
    + rewrite (wrapper_miss_ok _ _ _ (process_data_cache_get_set)
                 _ _ _ _ _ Hkey Hf) in Hrun.
      injection Hrun as _ <-. simpl in Hk. rewrite Hpd in Hk.
      destruct (decide (make_key args kwargs = k)) as [<-|Hne].
      * rewrite lookup_insert_eq in Hk. injection Hk as <-.
        apply warmed_set_process_data_cache.
        by eapply process_data_func_warms.
      * rewrite lookup_insert_ne in Hk by done. congruence.
    + rewrite (wrapper_miss_raise _ _ _ _ _ _ _ _ Hkey Hf) in Hrun.
      injection Hrun as _ <-. congruence.
Qed.

Lemma reachable_tables_warmed st : reachable st → tables_warmed data_of st.
Proof.
  induction 1 as [|st m args kwargs r st' _ IH Hcall].
  - intros k tbl self Hk. simpl in Hk. by rewrite lookup_empty in Hk.
  - by eapply call_keeps_tables_warmed.
Qed.

(** X16. After [process_data()] has returned a table, the calls it made
    are all stored: [moving_average(window=7)], [differential()],
    [find_extremes()] and [autocorrelation(i)] for every row [i] are
    answered from the caches, which they leave unchanged. *)
Theorem process_data_warms_caches st self tbl st' :
  reachable st →
  process_data [PObj self] [] st = (Ok tbl, st') →
  (∃ ma, moving_average [PObj self] [("window", PInt 7)] st' = (Ok ma, st')) ∧
  (∃ d, differential [PObj self] [] st' = (Ok d, st')) ∧
  (∃ e, find_extremes [PObj self] [] st' = (Ok e, st')) ∧
  (∀ i, i < length (data_of self) →
     ∃ x, autocorrelation [PObj self; PInt (Z.of_nat i)] [] st'
          = (Ok x, st')).
Proof.
  intros Hr Hrun.
  assert (Hr' : reachable st').
  { apply (reachable_call data_of st ProcessData [PObj self] []
             (Ok (VFrame tbl)) st' Hr).
    simpl. unfold returning.
    fold (WeatherDataProcessor.process_data data_of). by rewrite Hrun. }
  apply wrapper_ok_stored in Hrun; [|done].
  destruct (reachable_tables_warmed st' Hr' _ tbl self Hrun eq_refl)
    as ([ma Hma] & [d Hd] & [e He] & Hlags).
  split; [|split; [|split]].
  - exists ma. by apply wrapper_hit.
  - exists d. by apply wrapper_hit.
  - exists e. by apply wrapper_hit.
  - intros i Hi. destruct (Hlags i Hi) as [x Hx].
    exists x. by apply wrapper_hit.
Qed.

Lemma reindex_duplicates (x : Series) idx :
  ¬ NoDup (index x) → index x ≠ idx → reindex x idx = Raise ValueError.
Proof.
  intros Hdup Hne. unfold reindex.
  by rewrite decide_False, decide_False.
Qed.

Lemma reindex_raises_ValueError (x : Series) idx e :
  reindex x idx = Raise e → e = ValueError.
Proof. unfold reindex. repeat case_decide; congruence. Qed.

Lemma index_rows_where_ne (P : nat → bool) (s : Series) :
  P 0 = false → ¬ NoDup (index (rows_where P s)) →
  index (rows_where P s) ≠ index s.
Proof.
  intros HP Hdup Heq.
  assert (Hs : s ≠ []).
  { intros ->. apply Hdup. constructor. }
  pose proof (length_rows_where_lt P s Hs HP) as Hlt.
  apply (f_equal length) in Heq. rewrite !length_index in Heq. lia.
Qed.

Lemma process_data_table_duplicates self :
  let s := data_of self in
  let t := values s in
  ¬ NoDup (index (rows_where (is_local_max t) s)) ∨
  ¬ NoDup (index (rows_where (is_local_min t) s)) →
  process_data_table data_of self = Raise ValueError.
Proof.
  intros s t Hdup. unfold process_data_table. fold s t.
  destruct (rolling_mean_Ok 7 t) as (ma & -> & _); [lia|].
  cbn [fst snd]. rewrite max_mask, min_mask.
  replace (length t) with (length s) by (symmetry; apply length_values).
  rewrite !select_positions.
  destruct Hdup as [Hmax|Hmin].
  - rewrite (reindex_duplicates (rows_where (is_local_max t) s));
      [done | done | by apply index_rows_where_ne].
  - rewrite (reindex_duplicates (rows_where (is_local_min t) s));
      [| done | by apply index_rows_where_ne].
    destruct (reindex (rows_where (is_local_max t) s) (index s))
      as [mx|e] eqn:Hmx; [done|].
    by rewrite (reindex_raises_ValueError _ _ _ Hmx).
Qed.

(** X17. When two local maxima, or two local minima, carry the same
    timestamp, [process_data()] fails with the [ValueError] pandas raises
    on re-indexing duplicate labels, and stores no table. *)
Theorem process_data_duplicate_extremum_labels st self :
  reachable st →
  let s := data_of self in
  let t := values s in
  ¬ NoDup (index (rows_where (is_local_max t) s)) ∨
  ¬ NoDup (index (rows_where (is_local_min t) s)) →
  ∃ st', process_data [PObj self] [] st = (Raise ValueError, st') ∧
         process_data_cache st' = process_data_cache st.
Proof.
  intros Hr s t Hdup. pose proof (reachable_coherent _ _ Hr) as Hc.
  assert (Hpure : process_data_pure data_of [PObj self] []
                  = Raise ValueError)
    by (by apply process_data_table_duplicates).
  unfold WeatherDataProcessor.process_data.
  destruct (process_data_cache st !! make_key [PObj self] []) as [v|] eqn:Hk.
  { destruct Hc as (_&_&_&_&H5). pose proof (H5 _ _ Hk) as Hv.
    simpl in Hv. congruence. }
  destruct (process_data_func_computes data_of [PObj self] [] st Hc)
    as (st1 & Hf & _).
  rewrite Hpure in Hf.
  destruct (process_data_func_preserves _ _ _ _ _ _ Hf) as [_ Hpd].
  exists st1. split; [|done].
  by apply wrapper_miss_raise.
Qed.

End with_data.
End ProcessorMore.

(** * The further properties at concrete tables *)

Module MoreChecks.
Import Cache Pandas WeatherDataProcessor Traces Samples.
Import CacheFacts PandasFacts ProcessorFacts Checks.
Import CacheTraces PandasMore ProcessorMore.

Lemma stored_value_is_final_witness :
  let f : list Z → list (string * Z) → M () Z :=
    λ args _ w, (Ok (foldr Z.add 0%Z args), w) in
  let s0 : counted Z Z () := Counted ∅ () 0 in
  let s1 := (counted_wrapper f [1%Z; 2%Z] [] s0).2 in
  let later := run_calls f [([5%Z], []); ([1%Z; 2%Z], [("a", 0%Z)])] s1 in
  counted_wrapper f [1%Z; 2%Z] [] s0 = (Ok 3%Z, s1) ∧
  counted_wrapper f [1%Z; 2%Z] [] later = (Ok 3%Z, later).
Proof.
  intros f s0 s1 later.
  assert (Hfirst : counted_wrapper f [1%Z; 2%Z] [] s0 = (Ok 3%Z, s1))
    by reflexivity.
  split; [exact Hfirst|].
  exact (stored_value_is_final f [1%Z; 2%Z] [] s0 s1 3%Z
           [([5%Z], []); ([1%Z; 2%Z], [("a", 0%Z)])] Hfirst).
Defined.

Lemma runs_once_per_distinct_key_witness :
  let f : list Z → list (string * Z) → M () Z :=
    λ args _ w, (Ok (foldr Z.add 0%Z args), w) in
  let s0 : counted Z Z () := Counted ∅ () 0 in
  let cs := [([1%Z], []); ([2%Z], []); ([1%Z], [])] in
  cs_calls (run_calls f cs s0) = 0 + size (list_to_set cs : gset (@key Z)) ∧
  dom (cs_cache (run_calls f cs s0)) = list_to_set cs.
Proof.
  intros f s0 cs.
  apply (runs_once_per_distinct_key f cs s0).
  - intros args kwargs w. by eexists _, _.
  - reflexivity.
Defined.

Lemma raising_call_runs_every_time_witness :
  let f : list Z → list (string * Z) → M () Z :=
    λ _ _ w, (Raise ValueError, w) in
  let s0 : counted Z Z () := Counted ∅ () 0 in
  cs_calls (run_calls f (replicate 3 ([1%Z], [])) s0) = 0 + 3 ∧
  cs_cache (run_calls f (replicate 3 ([1%Z], [])) s0) = cs_cache s0.
Proof.
  intros f s0.
  apply (raising_call_runs_every_time f [1%Z] [] s0 3).
  - intros w. by eexists _, _.
  - reflexivity.
Defined.

Lemma cached_call_is_transparent_witness :
  reachable (every test_series) no_caches ∧
  ∃ st', call (every test_series) Differential [PObj 0] [] no_caches
         = (call_pure (every test_series) Differential [PObj 0] [], st') ∧
         reachable (every test_series) st'.
Proof.
  split; [apply reachable_no_caches|].
  apply (cached_call_is_transparent (every test_series) Differential
           [PObj 0] [] no_caches (reachable_no_caches _)).
Defined.

Lemma call_answer_is_final_witness :
  let d := every test_series in
  let first := call d FindExtremes [PObj 0] [] no_caches in
  let v := VPair ([(2%Z, Num 2); (5%Z, Num 4)], [(3%Z, Num 1); (6%Z, Num 2)]) in
  let cs := [(Differential, ([PObj 0], [])); (FindExtremes, ([PObj 1], []))] in
  first = (Ok v, first.2) ∧
  call d FindExtremes [PObj 0] [] (call_all d cs first.2)
  = (Ok v, call_all d cs first.2).
Proof.
  intros d first v cs.
  assert (Hfirst : first = (Ok v, first.2)) by reflexivity.
  split; [exact Hfirst|].
  exact (call_answer_is_final d FindExtremes [PObj 0] [] no_caches v
           first.2 cs Hfirst).
Defined.

Lemma positional_and_keyword_window_witness :
  reachable (every test_series) no_caches ∧
  ∃ r st1 st2,
    moving_average (every test_series) [PObj 0; PInt 3] [] no_caches
    = (r, st1) ∧
    moving_average (every test_series) [PObj 0] [("window", PInt 3)] st1
    = (r, st2) ∧
    ∀ v, r = Ok v →
      moving_average_cache st2 !! ([PObj 0; PInt 3], []) = Some v ∧
      moving_average_cache st2 !! ([PObj 0], [("window", PInt 3)]) = Some v.
Proof.
  split; [apply reachable_no_caches|].
  apply (positional_and_keyword_window (every test_series) no_caches 0 3
           (reachable_no_caches _)).
Defined.

Lemma moving_average_cells_witness :
  reachable (every test_series) no_caches ∧ (1 <= 3)%Z ∧
  ∃ ma st',
    moving_average (every test_series) [PObj 0; PInt 3] [] no_caches
    = (Ok ma, st') ∧
    index ma = index test_series.
Proof.
  split; [apply reachable_no_caches|]. split; [lia|].
  destruct (moving_average_cells (every test_series) no_caches 0 3
              (reachable_no_caches _)) as (ma & st' & Hrun & Hidx & _);
    [lia|].
  by exists ma, st'.
Defined.

Lemma moving_average_defined_count_witness :
  reachable (every test_series) no_caches ∧ (1 <= 3)%Z ∧
  values (every test_series 0)
  = Num <$> (inject_Z <$> [0; 1; 2; 1; 3; 4; 2; 5; 6; 7]%Z) ∧
  ∃ ma st',
    moving_average (every test_series) [PObj 0; PInt 3] [] no_caches
    = (Ok ma, st') ∧
    length (present (values ma)) = 8.
Proof.
  split; [apply reachable_no_caches|]. split; [lia|]. split; [reflexivity|].
  apply (moving_average_defined_count (every test_series) no_caches 0 3
           (inject_Z <$> [0; 1; 2; 1; 3; 4; 2; 5; 6; 7]%Z)
           (reachable_no_caches _)); [lia | reflexivity].
Defined.

Lemma differential_cells_witness :
  reachable (every test_series) no_caches ∧
  ∃ d st',
    differential (every test_series) [PObj 0] [] no_caches = (Ok d, st') ∧
    index d = index test_series ∧
    (0 < length test_series → values d !! 0 = Some NaN).
Proof.
  split; [apply reachable_no_caches|].
  destruct (differential_cells (every test_series) no_caches 0
              (reachable_no_caches _)) as (d & st' & Hrun & Hidx & H0 & _).
  by exists d, st'.
Defined.

Lemma autocorrelation_lag_sign_witness :
  reachable (every rising_series) no_caches ∧
  (0 < 1)%Z ∧
  (∃ st', autocorrelation (every rising_series) [PObj 0; PInt 1] [] no_caches
          = (Ok (corr [Num (inject_Z 1); Num (inject_Z 3)]
                      [Num (inject_Z 0); Num (inject_Z 1)]), st')) ∧
  (∃ st', autocorrelation (every rising_series) [PObj 0; PInt (-1)] []
            no_caches
          = (Ok (corr [Num (inject_Z 0); Num (inject_Z 1)]
                      [Num (inject_Z 1); Num (inject_Z 3)]), st')).
Proof.
  split; [apply reachable_no_caches|]. split; [lia|].
  destruct (autocorrelation_lag_sign (every rising_series) no_caches 0 1
              (reachable_no_caches _)) as (Hpos & Hneg & _); [lia|].
  split; [exact Hpos | exact Hneg].
Defined.

Lemma autocorrelation_rising_run :
  ∃ st', autocorrelation (every rising_series) [PObj 0; PInt 1] [] no_caches
         = (Ok (Some below_one), st').
Proof.
  destruct (autocorrelation_computes (every rising_series)
              [PObj 0; PInt 1] [] no_caches (coherent_no_caches _))
    as (st' & Hrun & _).
  exists st'. rewrite Hrun. unfold autocorrelation_func. simpl bind_args.
  cbv iota. unfold every. by rewrite autocorr_rising_1.
Qed.

Lemma autocorrelation_in_range_witness :
  reachable (every rising_series) no_caches ∧
  (∃ st', autocorrelation (every rising_series) [PObj 0; PInt 1] [] no_caches
          = (Ok (Some below_one), st')) ∧
  (-1 <= below_one <= 1)%R.
Proof.
  split; [apply reachable_no_caches|]. split; [apply autocorrelation_rising_run|].
  destruct autocorrelation_rising_run as (st' & Hrun).
  exact (autocorrelation_in_range (every rising_series) no_caches 0 1
           below_one st' (reachable_no_caches _) Hrun).
Defined.

Lemma autocorrelation_little_overlap_nan_witness :
  reachable (every test_series) no_caches ∧
  (Z.of_nat (length (every test_series 0)) - 1 <= Z.abs 9)%Z ∧
  ∃ st', autocorrelation (every test_series) [PObj 0; PInt 9] [] no_caches
         = (Ok None, st').
Proof.
  split; [apply reachable_no_caches|]. split; [simpl; lia|].
  apply (autocorrelation_little_overlap_nan (every test_series) no_caches 0 9
           (reachable_no_caches _)).
  simpl. lia.
Defined.

Lemma extremes_never_overlap_witness :
  reachable (every test_series) no_caches ∧
  NoDup (index (every test_series 0)) ∧
  ∃ maxima minima st',
    find_extremes (every test_series) [PObj 0] [] no_caches
    = (Ok (maxima, minima), st') ∧
    (∀ row, row ∈ maxima → row ∉ minima).
Proof.
  split; [apply reachable_no_caches|].
  split; [apply NoDup_index_test_series|].
  destruct (extremes_never_overlap (every test_series) no_caches 0
              (reachable_no_caches _) NoDup_index_test_series)
    as (maxima & minima & st' & Hrun & _ & _ & Hdisj & _).
  by exists maxima, minima, st'.
Defined.

Lemma rising_series_never_decreases i a b :
  values rising_series !! i = Some (Num a) →
  values rising_series !! S i = Some (Num b) → (a <= b)%Q.
Proof.
  intros Ha Hb.
  destruct i as [|[|[|i]]]; simpl in Ha, Hb; simplify_eq;
    unfold Qle; simpl; lia.
Qed.

Lemma monotone_series_has_no_extremes_witness :
  reachable (every rising_series) no_caches ∧
  (∀ i a b, values rising_series !! i = Some (Num a) →
            values rising_series !! S i = Some (Num b) → (a <= b)%Q) ∧
  ∃ st', find_extremes (every rising_series) [PObj 0] [] no_caches
         = (Ok ([], []), st').
Proof.
  split; [apply reachable_no_caches|].
  split; [apply rising_series_never_decreases|].
  apply (monotone_series_has_no_extremes (every rising_series) no_caches 0
           (reachable_no_caches _)).
  left. apply rising_series_never_decreases.
Defined.

Lemma autocorrelation_generator_restarts_witness :
  reachable (every test_series) no_caches ∧
  ∃ acs st',
    autocorrelation_generator (every test_series) 0 no_caches
    = (Ok acs, st') ∧
    length acs = 10 ∧
    autocorrelation_generator (every test_series) 0 st' = (Ok acs, st').
Proof.
  split; [apply reachable_no_caches|].
  destruct (autocorrelation_generator_restarts (every test_series)
              no_caches 0 (reachable_no_caches _))
    as (acs & st' & Hrun & Hlen & _ & Hagain).
  by exists acs, st'.
Defined.

Lemma process_data_test_series_runs :
  ∃ tbl st', process_data (every test_series) [PObj 0] [] no_caches
             = (Ok tbl, st').
Proof.
  destruct (process_data_computes (every test_series) [PObj 0] []
              no_caches (coherent_no_caches _)) as (st' & Hrun & _).
  destruct (process_data_table_NoDup (every test_series) 0
              NoDup_index_test_series) as (ma & _ & _ & Htbl).
  unfold process_data_pure in Hrun. simpl bind_args in Hrun.
  cbv iota in Hrun. rewrite Htbl in Hrun. eauto.
Qed.

Lemma process_data_warms_caches_witness :
  reachable (every test_series) no_caches ∧
  ∃ tbl st',
    process_data (every test_series) [PObj 0] [] no_caches = (Ok tbl, st') ∧
    (∃ ma, moving_average (every test_series) [PObj 0] [("window", PInt 7)] st'
           = (Ok ma, st')) ∧
    (∃ d, differential (every test_series) [PObj 0] [] st' = (Ok d, st')).
Proof.
  split; [apply reachable_no_caches|].
  destruct process_data_test_series_runs as (tbl & st' & Hrun).
  destruct (process_data_warms_caches (every test_series) no_caches 0 tbl st'
              (reachable_no_caches _) Hrun) as (Hma & Hd & _).
  by exists tbl, st'.
Defined.

Lemma duplicate_dates_maxima :
  ¬ NoDup (index (rows_where (is_local_max (values duplicate_dates))
                    duplicate_dates)).
Proof. apply (bool_decide_unpack _). by vm_compute. Qed.

Lemma process_data_duplicate_extremum_labels_witness :
  reachable (every duplicate_dates) no_caches ∧
  ¬ NoDup (index (rows_where (is_local_max (values duplicate_dates))
                    duplicate_dates)) ∧
  ∃ st', process_data (every duplicate_dates) [PObj 0] [] no_caches
         = (Raise ValueError, st') ∧
         process_data_cache st' = process_data_cache no_caches.
Proof.
  split; [apply reachable_no_caches|].
  split; [apply duplicate_dates_maxima|].
  apply (process_data_duplicate_extremum_labels (every duplicate_dates)
           no_caches 0 (reachable_no_caches _)).
  left. apply duplicate_dates_maxima.
Defined.
End MoreChecks.
